(** * toolkit-mcp-server: the tool invocation pipeline

    A shallow embedding of the TypeScript sources of the toolkit MCP server
    (rate limiter, TTL cache, progress reporter, dispatcher, and the two tool
    handlers whose behaviour the specification singles out), together with
    the properties the specification states about them.

    Conventions of the embedding:
    - [Date.now()] is an integer number of milliseconds, a [Z]; a function
      that reads the clock once takes that reading as its argument [now];
    - a JavaScript [Map<string, V>] is a [gmap string V];
    - a function that may throw returns an [Outcome]; code that also
      mutates shared objects lives in the monad [M] of module Pipeline. *)

From Stdlib Require Import ZArith Lia.
From stdpp Require Import base option list gmap strings pretty sorting.

Local Open Scope Z_scope.

(** ** JavaScript values that cross the components *)

(** The three members of the SDK's [ErrorCode] enum the sources use. *)
Inductive ErrorCode := MethodNotFound | InvalidParams | InternalError.

(** A JavaScript number as far as the sources compute with it: an integer,
    or [NaN] (what arithmetic on [undefined] yields). *)
Inductive jsnum := Num (z : Z) | NaN.

(** The [data] payloads the sources attach to a [McpToolError]. *)
Inductive ErrorData :=
| ResetInSeconds (resetInSeconds : jsnum)
| Detail (text : string).

Record McpToolError := {
  code : ErrorCode;
  message : string;
  data : option ErrorData
}.

(** What a [throw] can carry: a [McpToolError], any other [Error] (only its
    [message] is ever read), or a value that is not an [Error] at all. *)
Inductive Thrown :=
| McpToolErr (e : McpToolError)
| JsError (msg : string)
| NonError.

Inductive Outcome (A : Type) :=
| Returned (a : A)
| Threw (e : Thrown).
Arguments Returned {A} a.
Arguments Threw {A} e.

Definition is_returned {A} (o : Outcome A) : bool :=
  match o with Returned _ => true | Threw _ => false end.

(** [error instanceof Error ? error.message : 'Unknown error'] *)
Definition messageOf (e : Thrown) : string :=
  match e with
  | McpToolErr err => message err
  | JsError msg => msg
  | NonError => "Unknown error"
  end.

(** The tool interface of types.ts: a handler resolves to
    [{content: [{type, text}], isError?}]. [X] is what [text] holds: a
    string, or for a handler that ends in [JSON.stringify(body, null, 2)]
    the [body] it serialises. *)
Record ContentItem (X : Type) := {
  type : string;
  text : X
}.
Arguments type {X} _.
Arguments text {X} _.

Record ToolResponse (X : Type) := {
  content : list (ContentItem X);
  isError : option bool
}.
Arguments content {X} _.
Arguments isError {X} _.

Definition textResponse {X} (body : X) : ToolResponse X :=
  {| content := [ {| type := "text"; text := body |} ]; isError := None |}.

(** [Math.ceil(x / 1000)] on an integer [x]. *)
Definition ceil_div (x d : Z) : Z := - ((- x) / d).

(** ** utils/rate-limiter.ts: the sliding-window limiter *)

Module RateLimiter.

Record RateLimitConfig := {
  maxRequests : Z;
  windowMs : Z;
  errorMessage : string
}.

(** [constructor(config)]: [config.errorMessage || '...']; the empty
    string is falsy. *)
Definition new (maxReq win : Z) (msg : option string) : RateLimitConfig :=
  {| maxRequests := maxReq;
     windowMs := win;
     errorMessage :=
       match msg with
       | Some m => if decide (m = EmptyString) then "Rate limit exceeded. Please try again later." else m
       | None => "Rate limit exceeded. Please try again later."
       end |}.

Section Limiter.
Variable cfg : RateLimitConfig.

(** [timestamps.filter(time => now - time < this.windowMs)] *)
Definition validTimestamps (now : Z) (timestamps : list Z) : list Z :=
  filter (λ time, now - time < windowMs cfg) timestamps.

(** [this.requests.get(key) || []] *)
Definition timestampsOf (key : string) (requests : gmap string (list Z)) : list Z :=
  default [] (requests !! key).

(** [validTimestamps[0] + this.windowMs - now], [NaN] on the empty array. *)
Definition untilOldestExpires (now : Z) (valid : list Z) : jsnum :=
  match valid with
  | oldestRequest :: _ => Num (oldestRequest + windowMs cfg - now)
  | [] => NaN
  end.

Definition ceilSeconds (n : jsnum) : jsnum :=
  match n with Num x => Num (ceil_div x 1000) | NaN => NaN end.

Definition checkLimit (key : string) (now : Z) (requests : gmap string (list Z))
  : Outcome unit * gmap string (list Z) :=
  let timestamps := timestampsOf key requests in
  let valid := validTimestamps now timestamps in
  if decide (maxRequests cfg <= Z.of_nat (length valid)) then
    let resetTime := ceilSeconds (untilOldestExpires now valid) in
    (Threw (McpToolErr {| code := InternalError;
                          message := errorMessage cfg;
                          data := Some (ResetInSeconds resetTime) |}),
     requests)
  else
    (Returned (), <[key := valid ++ [now]]> requests).

(** [Math.max(0, this.maxRequests - validTimestamps.length)] *)
Definition getRemainingRequests (key : string) (now : Z) (requests : gmap string (list Z))
  : Z * gmap string (list Z) :=
  let valid := validTimestamps now (timestampsOf key requests) in
  (Z.max 0 (maxRequests cfg - Z.of_nat (length valid)), requests).

Definition getTimeToReset (key : string) (now : Z) (requests : gmap string (list Z))
  : Z * gmap string (list Z) :=
  let valid := validTimestamps now (timestampsOf key requests) in
  match valid with
  | [] => (0, requests)
  | oldest :: _ => (Z.max 0 (oldest + windowMs cfg - now), requests)
  end.

(** [cleanup()]: every key is visited once; a key whose window is
    entirely expired is deleted, any other keeps its valid timestamps. *)
Definition cleanup (now : Z) (requests : gmap string (list Z)) : gmap string (list Z) :=
  omap (λ timestamps,
          match validTimestamps now timestamps with
          | [] => None
          | valid => Some valid
          end) requests.

(** A call on the limiter, as the rest of the program can make it. *)
Inductive Call :=
| CheckLimit (key : string)
| GetRemainingRequests (key : string)
| GetTimeToReset (key : string)
| Cleanup.

Inductive Reply :=
| Accepted
| Rejected (e : Thrown)
| Number (n : Z)
| Done.

Definition step (now : Z) (c : Call) (requests : gmap string (list Z))
  : Reply * gmap string (list Z) :=
  match c with
  | CheckLimit key =>
      match checkLimit key now requests with
      | (Returned _, requests') => (Accepted, requests')
      | (Threw e, requests') => (Rejected e, requests')
      end
  | GetRemainingRequests key =>
      let '(n, requests') := getRemainingRequests key now requests in (Number n, requests')
  | GetTimeToReset key =>
      let '(n, requests') := getTimeToReset key now requests in (Number n, requests')
  | Cleanup => (Done, cleanup now requests)
  end.

(** Running a sequence of timed calls: the replies, and the final map. *)
Fixpoint run (calls : list (Z * Call)) (requests : gmap string (list Z))
  : list (Z * Call * Reply) * gmap string (list Z) :=
  match calls with
  | [] => ([], requests)
  | (now, c) :: rest =>
      let '(r, requests') := step now c requests in
      let '(history, final) := run rest requests' in
      ((now, c, r) :: history, final)
  end.



(** The clock never runs backwards: readings are non-decreasing from [t0]. *)
Fixpoint clockFrom (t0 : Z) (calls : list (Z * Call)) : Prop :=
  match calls with
  | [] => True
  | (now, _) :: rest => t0 <= now ∧ clockFrom now rest
  end.

Fixpoint lastReading (t0 : Z) (calls : list (Z * Call)) : Z :=
  match calls with
  | [] => t0
  | (now, _) :: rest => lastReading now rest
  end.

Definition introspection (c : Call) : bool :=
  match c with
  | GetRemainingRequests _ | GetTimeToReset _ => true
  | _ => false
  end.


(** Every stored timestamp was read from the clock at or before [T]. *)
Definition notAfter (T : Z) (requests : gmap string (list Z)) : Prop :=
  ∀ key, Forall (λ time, time <= T) (timestampsOf key requests).

End Limiter.

(** The three limiters the module exports. *)
Definition systemRateLimiter : RateLimitConfig :=
  new 100 (60 * 1000) (Some "Too many system operations. Please try again in a moment.").
Definition networkRateLimiter : RateLimitConfig :=
  new 50 (60 * 1000) (Some "Too many network operations. Please try again in a moment.").
Definition geoRateLimiter : RateLimitConfig :=
  new 45 (60 * 1000) (Some "IP-API rate limit exceeded. Please try again in a moment.").

End RateLimiter.

(** ** utils/cache.ts: the TTL cache and the fixed-window limiter *)

Module CacheTs.

Record CacheEntry (T : Type) := {
  data : T;
  timestamp : Z
}.
Arguments data {T} _.
Arguments timestamp {T} _.

Module Cache.
Section Cache.
Context {T : Type}.

Record t := {
  cache : gmap string (CacheEntry T);
  ttl : Z
}.

(** [constructor(ttlMs = 5 * 60 * 1000)] *)
Definition new (ttlMs : option Z) : t :=
  {| cache := ∅; ttl := default (5 * 60 * 1000) ttlMs |}.

Definition set (key : string) (value : T) (now : Z) (c : t) : t :=
  {| cache := <[key := {| data := value; timestamp := now |}]> (cache c);
     ttl := ttl c |}.

(** [get(key)]: [None] is [null]. The clock is read only when the
    entry exists. *)
Definition get (key : string) (now : Z) (c : t) : option T * t :=
  match cache c !! key with
  | None => (None, c)
  | Some entry =>
      if decide (now - timestamp entry > ttl c) then
        (None, {| cache := delete key (cache c); ttl := ttl c |})
      else
        (Some (data entry), c)
  end.

Definition clear (c : t) : t := {| cache := ∅; ttl := ttl c |}.

(** [prune()]: one pass over the entries, deleting the expired ones. *)
Definition prune (now : Z) (c : t) : t :=
  {| cache := filter (λ kv, ¬ (now - timestamp kv.2 > ttl c)) (cache c); ttl := ttl c |}.

(** The keys whose entries one [prune()] pass iterates over. *)
Definition pruneVisits (c : t) : list string :=
  (map_to_list (cache c)).*1.

End Cache.

Arguments t T : clear implicits.
End Cache.

Module RateLimiter.

Record t := {
  windowMs : Z;
  maxRequests : Z;
  requests : Z;
  resetTime : Z
}.

(** [constructor(maxRequests = 45, windowMs = 60000)], built at [now]. *)
Definition new (maxReq win : option Z) (now : Z) : t :=
  {| windowMs := default 60000 win;
     maxRequests := default 45 maxReq;
     requests := 0;
     resetTime := now + default 60000 win |}.

(** The block both [canMakeRequest] and [getRemainingRequests] open with. *)
Definition rollOver (now : Z) (l : t) : t :=
  if decide (resetTime l <= now) then
    {| windowMs := windowMs l; maxRequests := maxRequests l;
       requests := 0; resetTime := now + windowMs l |}
  else l.

Definition canMakeRequest (now : Z) (l : t) : bool * t :=
  let l' := rollOver now l in
  (bool_decide (requests l' < maxRequests l'), l').

Definition incrementRequests (l : t) : t :=
  {| windowMs := windowMs l; maxRequests := maxRequests l;
     requests := requests l + 1; resetTime := resetTime l |}.

Definition getRemainingRequests (now : Z) (l : t) : Z * t :=
  let l' := rollOver now l in
  (Z.max 0 (maxRequests l' - requests l'), l').

Definition getTimeToReset (now : Z) (l : t) : Z * t :=
  (Z.max 0 (resetTime l - now), l).

End RateLimiter.

End CacheTs.

(** ** tools/geo.ts: the cache-backed lookup *)

Module Geo.

(** The [GeoLocation] interface: [status] is the one field the handler
    inspects; the remaining fields travel along unread. *)
Record GeoLocation := {
  status : string;
  fields : list (string * string)
}.

Record RateLimitInfo := {
  remaining : jsnum;
  ttl : jsnum
}.

(** The object the handler hands to [JSON.stringify]. *)
Record Body := {
  data : option GeoLocation;
  rateLimit : option RateLimitInfo;
  source : string
}.

(** The module-level objects, and the lookups sent to ip-api.com so far. *)
Record State := {
  geoCache : CacheTs.Cache.t GeoLocation;
  rateLimiter : CacheTs.RateLimiter.t;
  fetches : list string
}.

(** Module initialisation at time [now]. *)
Definition init (now : Z) : State :=
  {| geoCache := CacheTs.Cache.new (Some (5 * 60 * 1000));
     rateLimiter := CacheTs.RateLimiter.new (Some 45) (Some 60000) now;
     fetches := [] |}.

(** The readings of [Date.now()] one run of the handler can make, in
    program order: inside [geoCache.get], [canMakeRequest],
    [getTimeToReset] and [geoCache.set]. *)
Record Clock := {
  atGet : Z;
  atLimit : Z;
  atReset : Z;
  atSet : Z
}.

(** What [fetchGeoData] did: it threw, or it resolved with the parsed
    body ([None] when the body is JSON [null]) and the header values. *)
Definition Fetched : Type := Outcome (option GeoLocation * RateLimitInfo).

Definition geolocate (query : string) (clk : Clock) (response : Fetched) (st : State)
  : Outcome (ToolResponse Body) * State :=
  let '(cached, cache1) := CacheTs.Cache.get query (atGet clk) (geoCache st) in
  match cached with
  | Some hit =>
      (Returned (textResponse {| data := Some hit; rateLimit := None; source := "cache" |}),
       {| geoCache := cache1; rateLimiter := rateLimiter st; fetches := fetches st |})
  | None =>
      let '(allowed, limiter1) := CacheTs.RateLimiter.canMakeRequest (atLimit clk) (rateLimiter st) in
      if negb allowed then
        let '(timeToReset, limiter2) := CacheTs.RateLimiter.getTimeToReset (atReset clk) limiter1 in
        (Threw (JsError ("Rate limit exceeded. Please try again in "
                         +:+ pretty (ceil_div timeToReset 1000) +:+ " seconds.")),
         {| geoCache := cache1; rateLimiter := limiter2; fetches := fetches st |})
      else
        match response with
        | Threw e =>
            (Threw (JsError ("Geolocation failed: " +:+ messageOf e)),
             {| geoCache := cache1; rateLimiter := limiter1;
                fetches := fetches st ++ [query] |})
        | Returned (body, limits) =>
            let limiter2 := CacheTs.RateLimiter.incrementRequests limiter1 in
            match body with
            | None =>
                (Threw (JsError ("Geolocation failed: "
                                 +:+ "Cannot read properties of null (reading 'status')")),
                 {| geoCache := cache1; rateLimiter := limiter2;
                    fetches := fetches st ++ [query] |})
            | Some received =>
                let cache2 :=
                  if decide (status received = "success")
                  then CacheTs.Cache.set query received (atSet clk) cache1
                  else cache1 in
                (Returned (textResponse {| data := Some received;
                                           rateLimit := Some limits;
                                           source := "api" |}),
                 {| geoCache := cache2; rateLimiter := limiter2;
                    fetches := fetches st ++ [query] |})
            end
        end
  end.

(** [clearGeoCache] *)
Definition clearGeoCache (st : State) : State :=
  {| geoCache := CacheTs.Cache.clear (geoCache st);
     rateLimiter := rateLimiter st; fetches := fetches st |}.

End Geo.

(** ** tools/datetime.ts: listTimezones *)

Module DateTime.

(** [Array.from(new Set(xs))]: first occurrences, in order. *)
Fixpoint unique (seen xs : list string) : list string :=
  match xs with
  | [] => []
  | x :: rest =>
      if decide (x ∈ seen) then unique seen rest else x :: unique (x :: seen) rest
  end.

(** [zone.startsWith(region)] *)
Definition startsWith (s sub : string) : bool := String.prefix sub s.

(** [handler({ region })]: [supported] is what
    [Intl.supportedValuesOf('timeZone')] yields; an absent or empty
    [region] is falsy. The body handed to [JSON.stringify] is kept as is. *)
Definition listTimezones (supported : Outcome (list string)) (region : option string)
  : Outcome (ToolResponse (list string)) :=
  match supported with
  | Threw e => Threw (JsError ("Failed to list timezones: " +:+ messageOf e))
  | Returned values =>
      let zones := unique [] values in
      let filteredZones :=
        match region with
        | Some r =>
            if decide (r = EmptyString) then zones
            else List.filter (λ zone, startsWith zone r) zones
        | None => zones
        end in
      Returned (textResponse zones)
  end.

End DateTime.

(** ** utils/progress.ts, utils/errors.ts and the dispatcher of index.ts *)

Module Pipeline.

(** *** The notification channel *)

Record ProgressOptions := {
  opt_title : string;
  opt_total : option Z;
  opt_unit : option string
}.

(** The [message] of a notification: the caller's text, or one of the
    reporter's templates together with the numbers it interpolates. *)
Inductive Message :=
| Custom (s : string)
| Processing (current total : Z) (unit : string)
| Processed (current : Z) (unit : string)
| CompletedProcessing (current : Z) (unit : string).

Inductive Notification :=
| Progress (token title : string) (message : Message) (current : Z)
           (total : option Z) (unit : string)
| Complete (token : string) (message : Message)
| Error (token : string) (error : string).

Definition method (n : Notification) : string :=
  match n with
  | Progress _ _ _ _ _ _ => "notifications/progress"
  | Complete _ _ => "notifications/progress/complete"
  | Error _ _ => "notifications/progress/error"
  end.

Definition isComplete (n : Notification) : bool :=
  match n with Complete _ _ => true | _ => false end.
Definition isErrorNote (n : Notification) : bool :=
  match n with Error _ _ => true | _ => false end.
Definition isTerminal (n : Notification) : bool := isComplete n || isErrorNote n.

(** The SDK server as the pipeline sees it: [server.notification(n)]
    resolves, or rejects with some value. The answer may depend on how
    many notifications were sent before. *)
Record Server := {
  rejects : nat → Notification → option Thrown
}.

(** *** The shared mutable objects *)

Inductive Category := System | Network | Geolocation.

(** The [requests] maps of the three exported limiters, and three logs the
    embedding keeps of what the pipeline does to its surroundings: every
    call of [server.notification] with whether it resolved, every
    [console.error], and the name of every tool whose handler was called. *)
Record World := {
  systemRequests : gmap string (list Z);
  networkRequests : gmap string (list Z);
  geoRequests : gmap string (list Z);
  sent : list (Notification * bool);
  console : list (string * Thrown);
  invoked : list string
}.

Definition limiterOf (c : Category) : RateLimiter.RateLimitConfig :=
  match c with
  | System => RateLimiter.systemRateLimiter
  | Network => RateLimiter.networkRateLimiter
  | Geolocation => RateLimiter.geoRateLimiter
  end.

Definition requestsOf (c : Category) (w : World) : gmap string (list Z) :=
  match c with
  | System => systemRequests w
  | Network => networkRequests w
  | Geolocation => geoRequests w
  end.

Definition withRequests (c : Category) (r : gmap string (list Z)) (w : World) : World :=
  {| systemRequests := match c with System => r | _ => systemRequests w end;
     networkRequests := match c with Network => r | _ => networkRequests w end;
     geoRequests := match c with Geolocation => r | _ => geoRequests w end;
     sent := sent w; console := console w; invoked := invoked w |}.

(** *** Computations that mutate the world and may throw *)

Definition M (A : Type) : Type := World → Outcome A * World.

#[export] Instance M_ret : MRet M := λ A a w, (Returned a, w).
#[export] Instance M_bind : MBind M := λ A B f m w,
  match m w with
  | (Returned a, w') => f a w'
  | (Threw e, w') => (Threw e, w')
  end.

Definition throw {A} (e : Thrown) : M A := λ w, (Threw e, w).

(** [try { body } catch (error) { handler }] *)
Definition tryCatch {A} (body : M A) (handler : Thrown → M A) : M A := λ w,
  match body w with
  | (Returned a, w') => (Returned a, w')
  | (Threw e, w') => handler e w'
  end.

Definition notification (srv : Server) (n : Notification) : M () := λ w,
  let answer := rejects srv (length (sent w)) n in
  (match answer with None => Returned () | Some e => Threw e end,
   {| systemRequests := systemRequests w; networkRequests := networkRequests w;
      geoRequests := geoRequests w;
      sent := sent w ++ [(n, bool_decide (answer = None))];
      console := console w; invoked := invoked w |}).

Definition consoleError (label : string) (e : Thrown) : M () := λ w,
  (Returned (),
   {| systemRequests := systemRequests w; networkRequests := networkRequests w;
      geoRequests := geoRequests w; sent := sent w;
      console := console w ++ [(label, e)]; invoked := invoked w |}).

Definition noteInvoked (name : string) : M () := λ w,
  (Returned (),
   {| systemRequests := systemRequests w; networkRequests := networkRequests w;
      geoRequests := geoRequests w; sent := sent w;
      console := console w; invoked := invoked w ++ [name] |}).

Definition checkLimit (c : Category) (key : string) (now : Z) : M () := λ w,
  let '(o, r) := RateLimiter.checkLimit (limiterOf c) key now (requestsOf c w) in
  (o, withRequests c r w).

(** [withRateLimit(key, operation)] *)
Definition withRateLimit {A} (c : Category) (key : string) (now : Z) (operation : M A) : M A :=
  checkLimit c key now ≫= λ _, operation.

(** *** ProgressReporter *)

Record ProgressReporter := {
  server : Server;
  token : string;
  total : option Z;
  title : string;
  unit : string;
  current : Z
}.

(** [new ProgressReporter(server, token, options)] *)
Definition newReporter (srv : Server) (tok : string) (options : ProgressOptions)
  : ProgressReporter :=
  {| server := srv; token := tok; total := opt_total options;
     title := opt_title options;
     unit := match opt_unit options with
             | Some u => if decide (u = EmptyString) then "items" else u
             | None => "items"
             end;
     current := 0 |}.

(** [getDefaultMessage()]: [if (this.total)] fails on [undefined] and on 0. *)
Definition getDefaultMessage (pr : ProgressReporter) : Message :=
  match total pr with
  | Some t => if decide (t = 0) then Processed (current pr) (unit pr)
              else Processing (current pr) t (unit pr)
  | None => Processed (current pr) (unit pr)
  end.

(** [message || fallback] *)
Definition orDefault (message : option string) (fallback : Message) : Message :=
  match message with
  | Some m => if decide (m = EmptyString) then fallback else Custom m
  | None => fallback
  end.

(** [report(increment = 1, message?)]; the result is the reporter after
    [this.current += increment]. *)
Definition report (pr : ProgressReporter) (increment : option Z) (message : option string)
  : M ProgressReporter :=
  let pr' := {| server := server pr; token := token pr; total := total pr;
                title := title pr; unit := unit pr;
                current := current pr + default 1 increment |} in
  tryCatch
    (notification (server pr')
       (Progress (token pr') (title pr') (orDefault message (getDefaultMessage pr'))
                 (current pr') (total pr') (unit pr')))
    (λ error, consoleError "Failed to send progress notification:" error)
  ≫= λ _, mret pr'.

Definition complete (pr : ProgressReporter) (message : option string) : M () :=
  tryCatch
    (notification (server pr)
       (Complete (token pr)
                 (orDefault message (CompletedProcessing (current pr) (unit pr)))))
    (λ error, consoleError "Failed to send completion notification:" error).

(** [error(error: Error)] *)
Definition error (pr : ProgressReporter) (err : Thrown) : M () :=
  tryCatch
    (notification (server pr) (Error (token pr) (messageOf err)))
    (λ notificationError,
       consoleError "Failed to send error notification:" notificationError).

(** [error instanceof Error ? error : new Error('Unknown error')] *)
Definition asError (e : Thrown) : Thrown :=
  match e with
  | NonError => JsError "Unknown error"
  | _ => e
  end.

(** [withProgress(server, options, operation)]; [tok] is the token the
    function draws from the clock and [Math.random()]. *)
Definition withProgress {A} (srv : Server) (options : ProgressOptions) (tok : string)
    (operation : ProgressReporter → M A) : M A :=
  let progress := newReporter srv tok options in
  tryCatch (operation progress)
           (λ err, error progress (asError err) ≫= λ _, throw err).

(** *** utils/errors.ts *)

(** The JSON-RPC numbers behind the SDK's [ErrorCode]. *)
Definition codeNumber (c : ErrorCode) : Z :=
  match c with
  | MethodNotFound => -32601
  | InvalidParams => -32602
  | InternalError => -32603
  end.

Definition quote : string := String (Ascii.ascii_of_nat 34) EmptyString.
Definition newline : string := String (Ascii.ascii_of_nat 10) EmptyString.

(** [JSON.stringify(error.data)]; [Detail] carries its rendering. *)
Definition stringifyData (d : ErrorData) : string :=
  match d with
  | ResetInSeconds (Num n) => "{" +:+ quote +:+ "resetInSeconds" +:+ quote +:+ ":" +:+ pretty n +:+ "}"
  | ResetInSeconds NaN => "{" +:+ quote +:+ "resetInSeconds" +:+ quote +:+ ":null}"
  | Detail json => json
  end.

Definition handleToolError (e : Thrown) : ToolResponse string :=
  match e with
  | McpToolErr err =>
      {| content := [ {| type := "text";
                         text := "Error " +:+ pretty (codeNumber (code err)) +:+ ": "
                                 +:+ message err
                                 +:+ match data err with
                                     | Some d => newline +:+ "Details: " +:+ stringifyData d
                                     | None => EmptyString
                                     end |} ];
         isError := Some true |}
  | _ =>
      {| content := [ {| type := "text";
                         text := "Internal error: " +:+ messageOf e |} ];
         isError := Some true |}
  end.

(** *** Tools and the registry *)

(** What a handler does with the reporter it is handed. *)
Inductive ReporterCall :=
| CallReport (increment : option Z) (message : option string)
| CallComplete (message : option string)
| CallError (e : Thrown).

Definition onlyReports (c : ReporterCall) : bool :=
  match c with CallReport _ _ => true | _ => false end.

(** One run of a handler, seen from the dispatcher: the reporter calls it
    makes, in order, and how it settles. *)
Record HandlerRun := {
  uses : list ReporterCall;
  settles : Outcome (ToolResponse string)
}.

Section Dispatcher.
(** The argument object of a call, and what each registered handler
    does when invoked on one. *)
Variable Args : Type.
Variable handlers : string → Args → HandlerRun.

Record Tool := {
  name : string;
  description : string;
  handler : Args → HandlerRun
}.

Definition tool (n d : string) : string * Tool :=
  (n, {| name := n; description := d; handler := handlers n |}).

Definition systemTools : gmap string Tool :=
  list_to_map [
    tool "getCurrentTime" "Get current time formatted with Intl.DateTimeFormat";
    tool "getSystemInfo" "Get system information using Node.js os module";
    tool "getLoadAverage" "Get system load average for 1, 5, and 15 minutes" ].

Definition networkTools : gmap string Tool :=
  list_to_map [
    tool "getNetworkInterfaces" "Get network interface information";
    tool "checkConnectivity" "Test TCP connectivity to a host and port";
    tool "getPublicIP" "Get public IP address using ip-api.com";
    tool "pingHost" "Ping a host using system ping command";
    tool "traceroute" "Perform traceroute to a host" ].

Definition geoTools : gmap string Tool :=
  list_to_map [
    tool "geolocate" "Get geolocation information for an IP address or domain";
    tool "clearGeoCache" "Clear the geolocation cache" ].

Definition generatorTools : gmap string Tool :=
  list_to_map [
    tool "generateUUID" "Generate a random UUID using crypto.randomUUID()";
    tool "generateQRCode" "Generate a QR code from input data" ].

Definition dateTimeTools : gmap string Tool :=
  list_to_map [
    tool "convertTimezone" "Convert date/time between timezones using Luxon";
    tool "listTimezones" "List all available IANA timezones" ].

Definition securityTools : gmap string Tool :=
  list_to_map [
    tool "hashData" "Hash input data using Node.js crypto module";
    tool "compareHashes" "Compare two hashes in constant time" ].

(** [{...systemTools, ..., ...securityTools}]: a later spread wins, and
    [∪] prefers its left operand. *)
Definition allTools : gmap string Tool :=
  securityTools ∪ dateTimeTools ∪ generatorTools ∪ geoTools
    ∪ networkTools ∪ systemTools.

(** The property names every object literal inherits from
    [Object.prototype]. *)
Definition objectPrototype : list string :=
  [ "constructor"; "hasOwnProperty"; "isPrototypeOf"; "propertyIsEnumerable";
    "toLocaleString"; "toString"; "valueOf"; "__proto__";
    "__defineGetter__"; "__defineSetter__"; "__lookupGetter__"; "__lookupSetter__" ].

(** What [allTools[name]] evaluates to: an own property (a tool), a
    member inherited from [Object.prototype] (truthy, without a
    [handler] property), or [undefined]. *)
Inductive Property :=
| Own (t : Tool)
| Inherited
| Undefined.

Definition getProperty (key : string) : Property :=
  match allTools !! key with
  | Some t => Own t
  | None => if decide (key ∈ objectPrototype) then Inherited else Undefined
  end.

(** *** The CallTool request handler *)

Record Request := {
  req_name : string;
  req_arguments : Args
}.

(** The clock reading [checkLimit] makes and the token [withProgress]
    draws during one invocation. *)
Record Instant := {
  now : Z;
  fresh : string
}.

Record Meta := { meta_isError : bool }.

Record ServerResult := {
  res_content : list (ContentItem string);
  _meta : option Meta
}.

(** [s.startsWith(sub)] *)
Definition startsWith (s sub : string) : bool := String.prefix sub s.

Definition selectRateLimiter (n : string) : Category :=
  if startsWith n "get_system" then System
  else if startsWith n "get_network"
          || bool_decide (n = "ping_host")
          || bool_decide (n = "traceroute") then Network
  else if bool_decide (n = "geolocate") then Geolocation
  else System.

(** The handler replays its reporter calls on the reporter object. *)
Fixpoint replay (pr : ProgressReporter) (calls : list ReporterCall) : M ProgressReporter :=
  match calls with
  | [] => mret pr
  | c :: rest =>
      (match c with
       | CallReport increment message => report pr increment message
       | CallComplete message => complete pr message ≫= λ _, mret pr
       | CallError e => error pr e ≫= λ _, mret pr
       end) ≫= λ pr', replay pr' rest
  end.

(** [tool.handler(request.params.arguments, progress)]: on a value
    without a [handler] property the call itself throws a TypeError. *)
Definition callHandler (p : Property) (args : Args) (pr : ProgressReporter)
  : M (ToolResponse string * ProgressReporter) :=
  match p with
  | Own t =>
      noteInvoked (name t) ≫= λ _,
      replay pr (uses (handler t args)) ≫= λ pr',
      match settles (handler t args) with
      | Returned toolResult => mret (toolResult, pr')
      | Threw e => throw e
      end
  | Inherited => throw (JsError "tool.handler is not a function")
  | Undefined => throw (JsError "Cannot read properties of undefined (reading 'handler')")
  end.

Definition truthy (flag : option bool) : bool := default false flag.

Definition callTool (srv : Server) (at_ : Instant) (request : Request) : M ServerResult :=
  tryCatch
    (let found := getProperty (req_name request) in
     match found with
     | Undefined =>
         throw (McpToolErr {| code := MethodNotFound;
                              message := "Tool not found: " +:+ req_name request;
                              data := None |})
     | _ =>
         let rateLimiter := selectRateLimiter (req_name request) in
         withRateLimit rateLimiter (req_name request) (now at_)
           (withProgress srv
              {| opt_title := "Executing " +:+ req_name request;
                 opt_total := None;
                 opt_unit := Some "operations" |}
              (fresh at_)
              (λ progress,
                 callHandler found (req_arguments request) progress ≫= λ '(toolResult, progress'),
                 complete progress' None ≫= λ _,
                 mret toolResult))
         ≫= λ result,
         mret {| res_content := content result;
                 _meta := if truthy (isError result)
                          then Some {| meta_isError := true |} else None |}
     end)
    (λ err,
       match err with
       | McpToolErr _ => throw err
       | _ =>
           let errorResult := handleToolError err in
           mret {| res_content := content errorResult;
                   _meta := Some {| meta_isError := true |} |}
       end).

End Dispatcher.

Arguments name {Args} _.
Arguments description {Args} _.
Arguments handler {Args} _.
Arguments Own {Args} t.
Arguments Inherited {Args}.
Arguments Undefined {Args}.
Arguments req_name {Args} _.
Arguments req_arguments {Args} _.

Definition emptyWorld : World :=
  {| systemRequests := ∅; networkRequests := ∅; geoRequests := ∅;
     sent := []; console := []; invoked := [] |}.

End Pipeline.

(** ** Vocabulary of the properties

    The notions the statements below are phrased in, and the sample data
    their instances run on. *)

Module RateLimiterTerms.
Import RateLimiter.

(** Three calls on a limiter that admits two per minute, then a sweep. *)
Definition sampleCalls : list (Z * Call) :=
  [ (0, CheckLimit "geolocate"); (10, CheckLimit "geolocate");
    (20, CheckLimit "pingHost"); (30, Cleanup) ].

(** [n] calls for one key, one millisecond apart. *)
Definition burst (n : nat) : list (Z * Call) :=
  map (λ i, (Z.of_nat i, CheckLimit "geolocate")) (seq 0 n).

End RateLimiterTerms.

Module GeoTerms.

Definition apiReply (received : Geo.GeoLocation) (limits : Geo.RateLimitInfo)
  : ToolResponse Geo.Body :=
  textResponse {| Geo.data := Some received; Geo.rateLimit := Some limits;
                  Geo.source := "api" |}.

Definition cacheReply (hit : Geo.GeoLocation) : ToolResponse Geo.Body :=
  textResponse {| Geo.data := Some hit; Geo.rateLimit := None;
                  Geo.source := "cache" |}.

Definition google : Geo.GeoLocation :=
  {| Geo.status := "success";
     Geo.fields := [("query", "8.8.8.8"); ("country", "United States")] |}.

Definition budget : Geo.RateLimitInfo :=
  {| Geo.remaining := Num 44; Geo.ttl := Num 60 |}.

Definition firstClock : Geo.Clock :=
  {| Geo.atGet := 1000; Geo.atLimit := 1000; Geo.atReset := 1000; Geo.atSet := 1120 |}.

Definition secondClock : Geo.Clock :=
  {| Geo.atGet := 2000; Geo.atLimit := 2000; Geo.atReset := 2000; Geo.atSet := 2100 |}.

(** What ip-api answers to a query it cannot resolve. *)
Definition rejected : Geo.GeoLocation :=
  {| Geo.status := "fail";
     Geo.fields := [("message", "invalid query"); ("query", "not a host")] |}.

End GeoTerms.

Module PipelineTerms.
Import Pipeline.

Definition sameLimiters (w w' : World) : Prop :=
  systemRequests w' = systemRequests w
  ∧ networkRequests w' = networkRequests w
  ∧ geoRequests w' = geoRequests w.

(** [w'] differs from [w] in the notification log and the console only. *)
Definition quiet (w w' : World) : Prop :=
  sameLimiters w w' ∧ invoked w' = invoked w.

(** Two worlds with the same limiter state and the same handler log. *)
Definition agree (w1 w2 : World) : Prop :=
  systemRequests w1 = systemRequests w2
  ∧ networkRequests w1 = networkRequests w2
  ∧ geoRequests w1 = geoRequests w2
  ∧ invoked w1 = invoked w2.

Definition notTerminal (entry : Notification * bool) : Prop :=
  isTerminal entry.1 = false.

Definition completions (notes : list (Notification * bool)) : nat :=
  length (List.filter (λ entry, isComplete entry.1) notes).

Definition failures (notes : list (Notification * bool)) : nat :=
  length (List.filter (λ entry, isErrorNote entry.1) notes).

Section Settling.
Variable Args : Type.

Definition notFound (n : string) : Thrown :=
  McpToolErr {| code := MethodNotFound;
                message := "Tool not found: " +:+ n;
                data := None |}.

(** How the call [tool.handler(args, progress)] settles. *)
Definition settle (found : Property Args) (args : Args)
  : Outcome (ToolResponse string) :=
  match found with
  | Own t => settles (handler t args)
  | Inherited => Threw (JsError "tool.handler is not a function")
  | Undefined => Threw (JsError "Cannot read properties of undefined (reading 'handler')")
  end.

Definition usesOf (found : Property Args) (args : Args) : list ReporterCall :=
  match found with
  | Own t => uses (handler t args)
  | _ => []
  end.

Definition handlerLog (found : Property Args) : list string :=
  match found with
  | Own t => [name t]
  | _ => []
  end.

(** What the request handler makes of a settled call. *)
Definition envelope (o : Outcome (ToolResponse string)) : Outcome ServerResult :=
  match o with
  | Returned result =>
      Returned {| res_content := content result;
                  _meta := if truthy (isError result)
                           then Some {| meta_isError := true |} else None |}
  | Threw (McpToolErr err) => Threw (McpToolErr err)
  | Threw err =>
      Returned {| res_content := [ {| type := "text";
                                      text := "Internal error: " +:+ messageOf err |} ];
                  _meta := Some {| meta_isError := true |} |}
  end.

(** The terminal notification that belongs to a settled call. *)
Definition closes (tok : string) (o : Outcome (ToolResponse string)) (n : Notification) : Prop :=
  match o with
  | Returned _ => ∃ count, n = Complete tok (CompletedProcessing count "operations")
  | Threw e => n = Error tok (messageOf e)
  end.

End Settling.

Arguments settle {Args} found args.
Arguments usesOf {Args} found args.
Arguments handlerLog {Args} found.

Definition registeredNames : list string :=
  [ "getCurrentTime"; "getSystemInfo"; "getLoadAverage";
    "getNetworkInterfaces"; "checkConnectivity"; "getPublicIP"; "pingHost"; "traceroute";
    "geolocate"; "clearGeoCache";
    "generateUUID"; "generateQRCode";
    "convertTimezone"; "listTimezones";
    "hashData"; "compareHashes" ].

(** A registry of handlers: pingHost reports once and fails, every other
    handler answers at once. *)
Definition sampleHandlers (n : string) (_ : ()) : HandlerRun :=
  if decide (n = "pingHost") then
    {| uses := [CallReport None None]; settles := Threw (JsError "Ping failed: timeout") |}
  else
    {| uses := []; settles := Returned (textResponse "ok") |}.

Definition reliable : Server := {| rejects := λ _ _, None |}.

Definition disconnected : Server := {| rejects := λ _ _, Some (JsError "Not connected") |}.

Definition noon : Instant := {| now := 43200000; fresh := "progress-43200000-k3x9" |}.

Definition call (n : string) : Request () := {| req_name := n; req_arguments := () |}.

End PipelineTerms.

(** ** Further vocabulary: runs of the sliding-window limiter *)

Module LimiterRuns.
Import RateLimiter.

(** The calls that concern a key of [K]; [cleanup] concerns none. *)
Definition about (K : string → bool) (c : Call) : bool :=
  match c with
  | CheckLimit key | GetRemainingRequests key | GetTimeToReset key => K key
  | Cleanup => false
  end.

Definition anyKey (key : string) : bool := true.

Definition only (key : string) (k : string) : bool := bool_decide (k = key).

(** From [t0] on, two maps count the same timestamps for the keys of [K]. *)
Definition alike (cfg : RateLimitConfig) (K : string → bool) (t0 : Z)
    (requests1 requests2 : gmap string (list Z)) : Prop :=
  ∀ key, K key = true → ∀ now, t0 <= now →
    validTimestamps cfg now (timestampsOf key requests1)
    = validTimestamps cfg now (timestampsOf key requests2).

(** No key holds more timestamps than the limiter lets through. *)
Definition withinBudget (cfg : RateLimitConfig) (requests : gmap string (list Z)) : Prop :=
  ∀ key, Z.of_nat (length (timestampsOf key requests)) <= Z.max 0 (maxRequests cfg).

(** Every array is in the order of the clock and holds no reading after [t]. *)
Definition inClockOrder (t : Z) (requests : gmap string (list Z)) : Prop :=
  ∀ key, StronglySorted Z.le (timestampsOf key requests)
         ∧ Forall (λ time, time <= t) (timestampsOf key requests).

(** A day in the life of a limiter that lets two calls per minute through. *)
Definition twoPerMinute : RateLimitConfig := new 2 60000 None.

Definition sweptCalls : list (Z * Call) :=
  [ (0, CheckLimit "geolocate"); (10, Cleanup); (20, CheckLimit "pingHost");
    (30, CheckLimit "geolocate"); (40, CheckLimit "geolocate");
    (50, GetTimeToReset "geolocate"); (61000, Cleanup);
    (61005, CheckLimit "geolocate"); (61010, GetRemainingRequests "geolocate") ].

End LimiterRuns.

(** ** Further vocabulary: the fixed-window limiter in use *)

Module FixedWindow.
Import CacheTs.



End FixedWindow.

(** ** Further vocabulary: runs of the geolocation module *)

Module GeoRuns.
Import CacheTs.

(** What the two tools of geo.ts do to the module's state. *)
Inductive Op :=
| Lookup (query : string) (clk : Geo.Clock) (response : Geo.Fetched)
| ClearCache.

Definition step (op : Op) (st : Geo.State)
  : option (Outcome (ToolResponse Geo.Body)) * Geo.State :=
  match op with
  | Lookup query clk response =>
      let '(reply, st') := Geo.geolocate query clk response st in (Some reply, st')
  | ClearCache => (None, Geo.clearGeoCache st)
  end.

Fixpoint run (ops : list Op) (st : Geo.State)
  : list (option (Outcome (ToolResponse Geo.Body))) * Geo.State :=
  match ops with
  | [] => ([], st)
  | op :: rest =>
      let '(reply, st1) := step op st in
      let '(replies, st2) := run rest st1 in
      (reply :: replies, st2)
  end.


(** The limiter grants a lookup at the handler's reading of the clock. *)
Definition allowed (clk : Geo.Clock) (st : Geo.State) : bool :=
  (RateLimiter.canMakeRequest (Geo.atLimit clk) (Geo.rateLimiter st)).1.

(** What every state of the module satisfies. *)
Definition sound (st : Geo.State) : Prop :=
  RateLimiter.maxRequests (Geo.rateLimiter st) = 45
  ∧ RateLimiter.windowMs (Geo.rateLimiter st) = 60000
  ∧ 0 <= RateLimiter.requests (Geo.rateLimiter st) <= 45
  ∧ Cache.ttl (Geo.geoCache st) = 300000
  ∧ ∀ key entry, Cache.cache (Geo.geoCache st) !! key = Some entry →
      Geo.status (data entry) = "success".

(** A reply that says it comes from the cache carries a successful body. *)
Definition honest (reply : option (Outcome (ToolResponse Geo.Body))) : Prop :=
  ∀ response item,
    reply = Some (Returned response) → item ∈ content response →
    Geo.source (text item) = "cache" →
    ∃ hit, Geo.data (text item) = Some hit ∧ Geo.status hit = "success".

End GeoRuns.

(** ** Further vocabulary: a server at work *)

Module Serving.
Import Pipeline.

(** The token a notification carries. *)
Definition tokenOf (n : Notification) : string :=
  match n with
  | Progress tok _ _ _ _ _ => tok
  | Complete tok _ => tok
  | Error tok _ => tok
  end.

(** The sum of the increments a handler reports; [report()] counts 1. *)
Fixpoint reported (calls : list ReporterCall) : Z :=
  match calls with
  | [] => 0
  | CallReport increment _ :: rest => default 1 increment + reported rest
  | _ :: rest => reported rest
  end.

#[export] Instance Category_eq_dec : EqDecision Category.
Proof. solve_decision. Defined.

(** The timestamps of [l] read at [t0] or later. *)
Definition recent (t0 : Z) (l : list Z) : list Z := filter (λ time, t0 <= time) l.

(** How often a tool's handler appears in the log of invocations. *)
Definition runs (tool : string) (log : list string) : nat :=
  length (List.filter (λ n, bool_decide (n = tool)) log).

(** The [setInterval] callback of utils/rate-limiter.ts: [cleanup()] on
    each of the three limiters, each with its own reading of the clock. *)
Definition sweep (atSystem atNetwork atGeo : Z) (w : World) : World :=
  {| systemRequests :=
       RateLimiter.cleanup RateLimiter.systemRateLimiter atSystem (systemRequests w);
     networkRequests :=
       RateLimiter.cleanup RateLimiter.networkRateLimiter atNetwork (networkRequests w);
     geoRequests := RateLimiter.cleanup RateLimiter.geoRateLimiter atGeo (geoRequests w);
     sent := sent w; console := console w; invoked := invoked w |}.

(** The reading a sweep uses for the limiter of a category. *)
Definition sweepReading (c : Category) (atSystem atNetwork atGeo : Z) : Z :=
  match c with
  | System => atSystem
  | Network => atNetwork
  | Geolocation => atGeo
  end.

Section Events.
Variable Args : Type.
Variable handlers : string → Args → HandlerRun.

(** What happens to a running server: a CallTool request arrives, or the
    sweep timer fires. *)
Inductive Event :=
| Invoke (srv : Server) (at_ : Instant) (request : Request Args)
| Sweep (atSystem atNetwork atGeo : Z).

(** The readings of the clock an event makes in the limiters. *)
Definition readings (e : Event) : list Z :=
  match e with
  | Invoke _ at_ _ => [now at_]
  | Sweep atSystem atNetwork atGeo => [atSystem; atNetwork; atGeo]
  end.

Definition handle (e : Event) (w : World) : World :=
  match e with
  | Invoke srv at_ request => (callTool Args handlers srv at_ request w).2
  | Sweep atSystem atNetwork atGeo => sweep atSystem atNetwork atGeo w
  end.

Definition serve (events : list Event) (w : World) : World :=
  foldl (λ w e, handle e w) w events.

(** The timestamps a world holds for a tool in the limiter that serves it. *)
Definition stamps (tool : string) (w : World) : list Z :=
  RateLimiter.timestampsOf tool (requestsOf (selectRateLimiter tool) w).

End Events.

Arguments Invoke {Args} srv at_ request.
Arguments Sweep {Args} atSystem atNetwork atGeo.
Arguments readings {Args} e.

(** Handlers of which hashData reports three steps before it returns. *)
Definition countingHandlers (n : string) (_ : ()) : HandlerRun :=
  if decide (n = "hashData") then
    {| uses := [CallReport (Some 2) None; CallReport None (Some "halfway");
                CallReport (Some 5) None];
       settles := Returned (textResponse "3a7bd3e2") |}
  else
    {| uses := []; settles := Returned (textResponse "ok") |}.

(** A burst of requests around noon, with the sweep firing in between. *)
Definition noonBurst : list (Event ()) :=
  [ Invoke PipelineTerms.reliable PipelineTerms.noon (PipelineTerms.call "hashData");
    Sweep 43200500 43200500 43200501;
    Invoke PipelineTerms.disconnected PipelineTerms.noon (PipelineTerms.call "pingHost");
    Invoke PipelineTerms.reliable PipelineTerms.noon (PipelineTerms.call "hashData") ].

End Serving.

(** ** Further vocabulary: the ListTools request handler *)

Module Listing.
Import Pipeline.

Section Listing.
Variable Args : Type.
Variable handlers : string → Args → HandlerRun.

(** The [inputSchema] of each tool, which the embedding does not look
    into. *)
Variable Schema : Type.
Variable inputSchema : string → Schema.

(** [{...acc, ...src}] on the own properties in their order: a key that
    is already there keeps its place and takes the new value, a new key
    goes to the end. *)
Definition assign (acc : list (string * Tool Args)) (entry : string * Tool Args)
  : list (string * Tool Args) :=
  if decide (entry.1 ∈ acc.*1)
  then (λ old, if decide (old.1 = entry.1) then entry else old) <$> acc
  else acc ++ [entry].

Definition spread (acc src : list (string * Tool Args)) : list (string * Tool Args) :=
  foldl assign acc src.

(** [Object.entries(allTools)] *)
Definition entries : list (string * Tool Args) :=
  foldl spread []
    [ [ tool Args handlers "getCurrentTime" "Get current time formatted with Intl.DateTimeFormat";
        tool Args handlers "getSystemInfo" "Get system information using Node.js os module";
        tool Args handlers "getLoadAverage" "Get system load average for 1, 5, and 15 minutes" ];
      [ tool Args handlers "getNetworkInterfaces" "Get network interface information";
        tool Args handlers "checkConnectivity" "Test TCP connectivity to a host and port";
        tool Args handlers "getPublicIP" "Get public IP address using ip-api.com";
        tool Args handlers "pingHost" "Ping a host using system ping command";
        tool Args handlers "traceroute" "Perform traceroute to a host" ];
      [ tool Args handlers "geolocate" "Get geolocation information for an IP address or domain";
        tool Args handlers "clearGeoCache" "Clear the geolocation cache" ];
      [ tool Args handlers "generateUUID" "Generate a random UUID using crypto.randomUUID()";
        tool Args handlers "generateQRCode" "Generate a QR code from input data" ];
      [ tool Args handlers "convertTimezone" "Convert date/time between timezones using Luxon";
        tool Args handlers "listTimezones" "List all available IANA timezones" ];
      [ tool Args handlers "hashData" "Hash input data using Node.js crypto module";
        tool Args handlers "compareHashes" "Compare two hashes in constant time" ] ].

Record Listed := {
  listed_name : string;
  listed_description : string;
  listed_inputSchema : Schema
}.

(** The ListTools handler: one record per own property of [allTools]. *)
Definition listTools : list Listed :=
  (λ entry, {| listed_name := entry.1;
               listed_description := description entry.2;
               listed_inputSchema := inputSchema entry.1 |}) <$> entries.

End Listing.

Arguments listed_name {Schema} _.
Arguments listed_description {Schema} _.
Arguments listed_inputSchema {Schema} _.

End Listing.

(** * Properties *)

(** ** The sliding-window limiter *)

Module RateLimiterProps.
Import RateLimiter RateLimiterTerms.

Lemma ceil_div_pos x : 0 < x → 0 < ceil_div x 1000.
Proof.
  intros Hx. unfold ceil_div.
  assert ((- x) / 1000 < 0) by (apply Z.div_lt_upper_bound; lia).
  lia.
Qed.

Lemma ceil_div_mono x y : x <= y → ceil_div x 1000 <= ceil_div y 1000.
Proof.
  intros Hxy. unfold ceil_div.
  assert ((- y) / 1000 <= (- x) / 1000) by (apply Z.div_le_mono; lia).
  lia.
Qed.


Section Window.
Variable cfg : RateLimitConfig.

Lemma valid_app now l1 l2 :
  validTimestamps cfg now (l1 ++ l2)
  = validTimestamps cfg now l1 ++ validTimestamps cfg now l2.
Proof. apply filter_app. Qed.

(** Pruning at an earlier instant loses nothing a later window counts. *)
Lemma valid_later now now' l :
  now <= now' →
  validTimestamps cfg now' (validTimestamps cfg now l) = validTimestamps cfg now' l.
Proof.
  intros Hle. unfold validTimestamps.
  apply list_filter_filter_l. intros time. lia.
Qed.

Lemma valid_all_expired now T l :
  Forall (λ time, time <= T) l → windowMs cfg <= now - T →
  validTimestamps cfg now l = [].
Proof.
  intros Hall Hgap. unfold validTimestamps.
  induction Hall as [|time l Htime _ IH]; [done|].
  rewrite filter_cons_False by lia. exact IH.
Qed.



Lemma timestampsOf_insert key k l (requests : gmap string (list Z)) :
  timestampsOf key (<[k := l]> requests)
  = if decide (k = key) then l else timestampsOf key requests.
Proof.
  unfold timestampsOf. rewrite lookup_insert.
  destruct (decide (k = key)); done.
Qed.

Lemma timestampsOf_cleanup key now (requests : gmap string (list Z)) :
  timestampsOf key (cleanup cfg now requests)
  = validTimestamps cfg now (timestampsOf key requests).
Proof.
  unfold timestampsOf, cleanup. rewrite lookup_omap.
  destruct (requests !! key) as [l|]; simpl; [|done].
  destruct (validTimestamps cfg now l); done.
Qed.




Lemma run_cons now c rest requests :
  run cfg ((now, c) :: rest) requests
  = ((now, c, (step cfg now c requests).1)
       :: (run cfg rest (step cfg now c requests).2).1,
     (run cfg rest (step cfg now c requests).2).2).
Proof.
  cbn [run]. destruct (step cfg now c requests) as [r requests'].
  cbn [fst snd]. destruct (run cfg rest requests'); reflexivity.
Qed.


End Window.




(** Why the theorem asks for [maxRequests >= 1] and a clock that does not
    run backwards: a limiter with no budget rejects on an empty array, so
    its [resetInSeconds] is [NaN]; and a timestamp from the future keeps
    counting, with a reset time beyond the window. *)
Example checkLimit_without_budget :
  (checkLimit (new 0 60000 None) "k" 5 ∅).1
  = Threw (McpToolErr {| code := InternalError;
                         message := "Rate limit exceeded. Please try again later.";
                         data := Some (ResetInSeconds NaN) |}).
Proof. reflexivity. Qed.

Example checkLimit_clock_stepped_back :
  let cfg := new 1 60000 None in
  (checkLimit cfg "k" 0 (run cfg [(100000, CheckLimit "k")] ∅).2).1
  = Threw (McpToolErr {| code := InternalError;
                         message := "Rate limit exceeded. Please try again later.";
                         data := Some (ResetInSeconds (Num 160)) |}).
Proof. reflexivity. Qed.

(** The scenario of the specification on the exported geo limiter: 45
    calls one millisecond apart are let through, the 46th is rejected with
    [resetInSeconds = 60]. *)
Example geo_limiter_46th_call :
  let first45 := run geoRateLimiter (burst 45) ∅ in
  Forall (λ e, e.2 = Accepted) first45.1
  ∧ (checkLimit geoRateLimiter "geolocate" 45 first45.2).1
    = Threw (McpToolErr {| code := InternalError;
                           message := "IP-API rate limit exceeded. Please try again in a moment.";
                           data := Some (ResetInSeconds (Num 60)) |}).
Proof. vm_compute. split; [repeat constructor | reflexivity]. Qed.

(** *** Introspection *)

Lemma getTimeToReset_state cfg key now requests :
  (getTimeToReset cfg key now requests).2 = requests.
Proof.
  unfold getTimeToReset.
  destruct (validTimestamps cfg now (timestampsOf key requests)); done.
Qed.

Lemma step_introspection cfg now c requests :
  introspection c = true → (step cfg now c requests).2 = requests.
Proof.
  destruct c; try discriminate; intros _; simpl; [done|].
  pose proof (getTimeToReset_state cfg key now requests) as Hsame.
  destruct (getTimeToReset cfg key now requests). exact Hsame.
Qed.

Lemma run_introspection cfg probes : ∀ requests,
  Forall (λ tc, introspection tc.2 = true) probes →
  (run cfg probes requests).2 = requests.
Proof.
  induction probes as [|[now c] rest IH]; intros requests Hall; [done|].
  apply Forall_cons in Hall as [Hc Hrest]. simpl in Hc.
  rewrite run_cons. cbn [snd].
  rewrite (step_introspection cfg now c requests Hc). by apply IH.
Qed.

Lemma step_notAfter cfg T now c requests :
  now <= T → notAfter T requests → notAfter T (step cfg now c requests).2.
Proof.
  intros Hnow Hall key'. destruct c as [k|k|k|]; simpl.
  - unfold checkLimit.
    destruct (decide (maxRequests cfg
                      <= Z.of_nat (length (validTimestamps cfg now (timestampsOf k requests)))));
      simpl; [apply Hall|].
    rewrite timestampsOf_insert. destruct (decide (k = key')); [|apply Hall].
    apply Forall_app. split; [|by constructor].
    unfold validTimestamps. apply Forall_forall. intros time Hin.
    apply list_elem_of_filter in Hin as [_ Hin].
    specialize (Hall k). rewrite Forall_forall in Hall. by apply Hall.
  - apply Hall.
  - unfold getTimeToReset.
    destruct (validTimestamps cfg now (timestampsOf k requests)); apply Hall.
  - rewrite timestampsOf_cleanup.
    unfold validTimestamps. apply Forall_forall. intros time Hin.
    apply list_elem_of_filter in Hin as [_ Hin].
    specialize (Hall key'). rewrite Forall_forall in Hall. by apply Hall.
Qed.

Lemma run_notAfter cfg T calls : ∀ requests,
  Forall (λ tc, tc.1 <= T) calls → notAfter T requests →
  notAfter T (run cfg calls requests).2.
Proof.
  induction calls as [|[now c] rest IH]; intros requests Hall Hinv; [done|].
  apply Forall_cons in Hall as [Hc Hrest]. simpl in Hc.
  rewrite run_cons. cbn [snd]. apply IH; [done|]. by apply step_notAfter.
Qed.

(** C7 (amended). On the sliding-window limiter of utils/rate-limiter.ts,
    [getRemainingRequests] and [getTimeToReset] leave the stored
    timestamps unchanged, however often and in whatever order they are
    called, so every later call answers as it would have without them;
    and once [windowMs] has passed since the last call, with
    [maxRequests >= 0], [getRemainingRequests] answers [maxRequests]. *)
Theorem introspection_read_only cfg key probes calls T now :
  0 <= maxRequests cfg →
  Forall (λ tc, introspection tc.2 = true) probes →
  Forall (λ tc, tc.1 <= T) calls →
  windowMs cfg <= now - T →
  (∀ requests,
     (getRemainingRequests cfg key now requests).2 = requests
     ∧ (getTimeToReset cfg key now requests).2 = requests
     ∧ (run cfg probes requests).2 = requests
     ∧ ∀ t c, step cfg t c (run cfg probes requests).2 = step cfg t c requests)
  ∧ (getRemainingRequests cfg key now (run cfg calls ∅).2).1 = maxRequests cfg.
Proof.
  intros Hmax Hprobes Hcalls Hgap. split.
  - intros requests.
    pose proof (run_introspection cfg probes requests Hprobes) as Hsame.
    split; [reflexivity|].
    split; [apply getTimeToReset_state|].
    split; [exact Hsame|]. intros t c. by rewrite Hsame.
  - assert (Hstored : notAfter T (run cfg calls ∅).2).
    { apply run_notAfter; [exact Hcalls|]. intros k. constructor. }
    unfold getRemainingRequests. cbn [fst].
    rewrite (valid_all_expired cfg now T _ (Hstored key) Hgap). simpl. lia.
Qed.

(** An instance: probing after the sample calls changes nothing, and a
    minute after the last call the whole budget is back. *)
Lemma introspection_read_only_witness :
  let cfg := new 2 60000 None in
  let requests := (run cfg sampleCalls ∅).2 in
  (run cfg [(35, GetRemainingRequests "geolocate"); (35, GetTimeToReset "geolocate")]
       requests).2 = requests
  ∧ (getRemainingRequests cfg "geolocate" 35 requests).1 = 0
  ∧ (getRemainingRequests cfg "geolocate" 60030 requests).1 = 2.
Proof.
  intros cfg requests.
  destruct (introspection_read_only cfg "geolocate"
              [(35, GetRemainingRequests "geolocate"); (35, GetTimeToReset "geolocate")]
              sampleCalls 30 60030) as [Hframe Hreset].
  - simpl. lia.
  - repeat constructor.
  - repeat constructor; simpl; lia.
  - simpl. lia.
  - destruct (Hframe requests) as (_ & _ & Hsame & _).
    split; [exact Hsame|]. split; [reflexivity|exact Hreset].
Defined.

End RateLimiterProps.

(** ** The TTL cache and the fixed-window limiter *)

Module CacheProps.
Import CacheTs.

(** C7, as stated, fails on the fixed-window limiter of utils/cache.ts:
    once [resetTime] is reached, [getRemainingRequests] starts a new
    window, which changes the stored count and reset time and with them
    what a later [getTimeToReset] at the same instant answers. *)
Lemma fixed_window_getRemainingRequests_writes :
  let fresh := RateLimiter.new (Some 45) (Some 60000) 0 in
  let used := Nat.iter 5 RateLimiter.incrementRequests fresh in
  (RateLimiter.getRemainingRequests 60000 used).2 ≠ used
  ∧ RateLimiter.requests (RateLimiter.getRemainingRequests 60000 used).2 = 0
  ∧ RateLimiter.requests used = 5
  ∧ (RateLimiter.getTimeToReset 60000 used).1 = 0
  ∧ (RateLimiter.getTimeToReset 60000
       (RateLimiter.getRemainingRequests 60000 used).2).1 = 60000.
Proof. vm_compute. repeat split; try reflexivity. discriminate. Qed.

(** The other reader of that class does not write. *)
Lemma fixed_window_getTimeToReset_reads now l :
  (RateLimiter.getTimeToReset now l).2 = l.
Proof. reflexivity. Qed.

Section Cache.
Context {T : Type}.
Implicit Types (c : Cache.t T) (key : string) (value : T).

Lemma get_fresh c key now entry :
  Cache.cache c !! key = Some entry →
  now - timestamp entry <= Cache.ttl c →
  Cache.get key now c = (Some (data entry), c).
Proof.
  intros Hentry Hage. unfold Cache.get. rewrite Hentry.
  rewrite decide_False by lia. reflexivity.
Qed.

Lemma get_expired c key now entry :
  Cache.cache c !! key = Some entry →
  now - timestamp entry > Cache.ttl c →
  Cache.get key now c
  = (None, {| Cache.cache := delete key (Cache.cache c); Cache.ttl := Cache.ttl c |}).
Proof.
  intros Hentry Hage. unfold Cache.get. rewrite Hentry.
  rewrite decide_True by lia. reflexivity.
Qed.

Lemma get_age c key now value :
  (Cache.get key now c).1 = Some value →
  ∃ entry, Cache.cache c !! key = Some entry
           ∧ data entry = value
           ∧ now - timestamp entry <= Cache.ttl c.
Proof.
  unfold Cache.get. destruct (Cache.cache c !! key) as [entry|]; [|discriminate].
  destruct (decide (now - timestamp entry > Cache.ttl c)); [discriminate|].
  simpl. intros [= <-]. exists entry. repeat split; lia.
Qed.

(** [prune()] keeps exactly the entries that have not expired. *)
Lemma prune_lookup c key now :
  Cache.cache (Cache.prune now c) !! key
  = match Cache.cache c !! key with
    | Some entry =>
        if decide (now - timestamp entry > Cache.ttl c) then None else Some entry
    | None => None
    end.
Proof.
  unfold Cache.prune. cbn [Cache.cache].
  destruct (Cache.cache c !! key) as [entry|] eqn:Hentry.
  - destruct (decide (now - timestamp entry > Cache.ttl c)).
    + apply map_lookup_filter_None. right. intros x Hx. simpl.
      rewrite Hentry in Hx. injection Hx as <-. tauto.
    + apply map_lookup_filter_Some. split; [done|]. simpl. lia.
  - apply map_lookup_filter_None. by left.
Qed.

Lemma pruneVisits_spec c key :
  key ∈ Cache.pruneVisits c ↔ is_Some (Cache.cache c !! key).
Proof.
  unfold Cache.pruneVisits. rewrite list_elem_of_fmap. split.
  - intros ([k e] & -> & Hin). apply elem_of_map_to_list in Hin. eauto.
  - intros [e He]. exists (key, e). split; [done|]. by apply elem_of_map_to_list.
Qed.

(** C5. With a ttl that is not negative: [get(k)] right after
    [set(k, v)] returns [v], and so does any read at most [ttl] later;
    a value [get] returns comes from an entry whose age at the read is
    at most [ttl]; and a read of an entry older than [ttl] returns
    [null] and deletes the entry, which no later [prune()] pass visits
    or finds. *)
Theorem cache_ttl c :
  0 <= Cache.ttl c →
  (∀ key value t,
     Cache.get key t (Cache.set key value t c) = (Some value, Cache.set key value t c)
     ∧ ∀ now, now - t <= Cache.ttl c →
         Cache.get key now (Cache.set key value t c)
         = (Some value, Cache.set key value t c))
  ∧ (∀ key now value,
       (Cache.get key now c).1 = Some value →
       ∃ entry, Cache.cache c !! key = Some entry
                ∧ data entry = value
                ∧ now - timestamp entry <= Cache.ttl c)
  ∧ (∀ key now entry,
       Cache.cache c !! key = Some entry →
       now - timestamp entry > Cache.ttl c →
       (Cache.get key now c).1 = None
       ∧ Cache.cache (Cache.get key now c).2 !! key = None
       ∧ (key ∉ Cache.pruneVisits (Cache.get key now c).2)
       ∧ ∀ later, Cache.cache (Cache.prune later (Cache.get key now c).2) !! key = None).
Proof.
  intros Httl. split; [|split].
  - intros key value t.
    assert (Hstored : Cache.cache (Cache.set key value t c) !! key
                      = Some {| data := value; timestamp := t |})
      by apply lookup_insert_eq.
    split.
    + rewrite (get_fresh _ _ _ _ Hstored); [done|]. simpl. lia.
    + intros now Hnow. rewrite (get_fresh _ _ _ _ Hstored); [done|]. simpl. lia.
  - intros key now value. apply get_age.
  - intros key now entry Hentry Hold.
    rewrite (get_expired _ _ _ _ Hentry Hold). cbn [fst snd Cache.cache].
    assert (Hgone : delete key (Cache.cache c) !! key = None) by apply lookup_delete_eq.
    split; [done|]. split; [done|]. split.
    + rewrite pruneVisits_spec. cbn [Cache.cache]. rewrite Hgone.
      intros [? ?]; discriminate.
    + intros later. rewrite prune_lookup. cbn [Cache.cache]. by rewrite Hgone.
Qed.

End Cache.

(** Why the theorem asks for a ttl that is not negative. *)
Example negative_ttl_drops_at_once :
  (Cache.get "k" 7 (Cache.set "k" "v" 7 (Cache.new (Some (-1))))).1 = None.
Proof. reflexivity. Qed.

(** An instance on the default five-minute cache. *)
Lemma cache_ttl_witness :
  let c : Cache.t string := Cache.set "8.8.8.8" "old" 0 (Cache.new None) in
  (Cache.get "1.1.1.1" 500 (Cache.set "1.1.1.1" "fresh" 500 c)).1 = Some "fresh"
  ∧ (Cache.get "8.8.8.8" 300001 c).1 = None
  ∧ ("8.8.8.8" ∉ Cache.pruneVisits (Cache.get "8.8.8.8" 300001 c).2).
Proof.
  intros c.
  destruct (cache_ttl c) as (Hset & _ & Hexpire).
  - simpl. lia.
  - destruct (Hset "1.1.1.1" "fresh" 500) as [Hnow _].
    destruct (Hexpire "8.8.8.8" 300001 {| data := "old"; timestamp := 0 |})
      as (Hnull & _ & Hvisit & _).
    + reflexivity.
    + simpl. lia.
    + split; [by rewrite Hnow|]. split; [exact Hnull|exact Hvisit].
Defined.

End CacheProps.

(** ** geolocate *)

Module GeoProps.
Import CacheTs GeoTerms.

(** A call that answers from the API has sent exactly one lookup and, on
    a "success" body, has stored it under the query at [atSet]. *)
Lemma geolocate_from_api query clk response st received limits :
  (Geo.geolocate query clk response st).1 = Returned (apiReply received limits) →
  response = Returned (Some received, limits)
  ∧ Geo.fetches (Geo.geolocate query clk response st).2 = Geo.fetches st ++ [query]
  ∧ Cache.ttl (Geo.geoCache (Geo.geolocate query clk response st).2)
    = Cache.ttl (Geo.geoCache st)
  ∧ (Geo.status received = "success" →
     Cache.cache (Geo.geoCache (Geo.geolocate query clk response st).2) !! query
     = Some {| data := received; timestamp := Geo.atSet clk |}).
Proof.
  unfold Geo.geolocate.
  destruct (Cache.get query (Geo.atGet clk) (Geo.geoCache st)) as [[hit|] cache1] eqn:Hget;
    [discriminate|].
  assert (Httl : Cache.ttl cache1 = Cache.ttl (Geo.geoCache st)).
  { revert Hget. unfold Cache.get.
    destruct (Cache.cache (Geo.geoCache st) !! query) as [e|]; [|by intros [= <-]].
    destruct (decide (Geo.atGet clk - timestamp e > Cache.ttl (Geo.geoCache st)));
      [by intros [= <-]|discriminate]. }
  destruct (RateLimiter.canMakeRequest (Geo.atLimit clk) (Geo.rateLimiter st))
    as [[|] limiter1]; simpl; [|discriminate].
  destruct response as [[[body|] lim]|e]; simpl; try discriminate.
  intros [= -> ->]. split; [done|]. split; [done|]. split.
  - destruct (decide (Geo.status received = "success")); simpl; done.
  - intros Hok. rewrite decide_True by done. simpl. apply lookup_insert_eq.
Qed.

(** C8 (amended). When a geolocate call fetched its answer from the API
    and the body's status was "success", a following call with the same
    query whose cache read comes at most ttl (300000 ms) after the first
    call stored the body answers with that body and source "cache",
    whatever a fetch would have produced, and changes nothing: no lookup
    is sent and the API budget is not touched. *)
Theorem geolocate_second_call_cached query clk1 clk2 response1 st received limits :
  (Geo.geolocate query clk1 response1 st).1 = Returned (apiReply received limits) →
  Geo.status received = "success" →
  Geo.atGet clk2 - Geo.atSet clk1 <= Cache.ttl (Geo.geoCache st) →
  ∀ response2,
    let st1 := (Geo.geolocate query clk1 response1 st).2 in
    Geo.geolocate query clk2 response2 st1 = (Returned (cacheReply received), st1).
Proof.
  intros Hfirst Hok Hsoon response2 st1.
  destruct (geolocate_from_api _ _ _ _ _ _ Hfirst) as (_ & _ & Httl & Hstored).
  specialize (Hstored Hok). fold st1 in Httl, Hstored.
  unfold Geo.geolocate.
  rewrite (CacheProps.get_fresh _ _ _ _ Hstored) by (simpl; lia).
  simpl. by destruct st1.
Qed.

(** An instance: a successful lookup, then the same query one second later
    while the network is down. *)
Lemma geolocate_second_call_cached_witness :
  let st1 := (Geo.geolocate "8.8.8.8" firstClock (Returned (Some google, budget))
                            (Geo.init 0)).2 in
  Geo.fetches st1 = ["8.8.8.8"]
  ∧ Geo.geolocate "8.8.8.8" secondClock (Threw NonError) st1
    = (Returned (cacheReply google), st1).
Proof.
  intros st1. split; [reflexivity|].
  apply (geolocate_second_call_cached "8.8.8.8" firstClock secondClock
           (Returned (Some google, budget)) (Geo.init 0) google budget).
  - reflexivity.
  - reflexivity.
  - simpl. lia.
Defined.

(** C8, as stated, fails when the first lookup did not succeed: ip-api
    answers an invalid query with status "fail", the handler caches
    successful bodies only, and the same query one second later is
    fetched again and reported with source "api". *)
Lemma geolocate_failed_lookup_not_cached :
  let st1 := (Geo.geolocate "not a host" firstClock (Returned (Some rejected, budget))
                            (Geo.init 0)).2 in
  let second := Geo.geolocate "not a host" secondClock (Returned (Some rejected, budget)) st1 in
  Geo.atGet secondClock - Geo.atSet firstClock <= 300000
  ∧ second.1 = Returned (apiReply rejected budget)
  ∧ second.1 ≠ Returned (cacheReply rejected)
  ∧ Geo.fetches st1 = ["not a host"]
  ∧ Geo.fetches second.2 = ["not a host"; "not a host"].
Proof.
  vm_compute. split; [discriminate|]. repeat split; try reflexivity. discriminate.
Qed.

End GeoProps.

(** ** listTimezones *)

Module DateTimeProps.


Example listTimezones_europe :
  DateTime.listTimezones
    (Returned ["Africa/Cairo"; "Europe/Paris"; "America/Lima"; "Europe/Paris"])
    (Some "Europe")
  = Returned (textResponse ["Africa/Cairo"; "Europe/Paris"; "America/Lima"]).
Proof. reflexivity. Qed.

End DateTimeProps.

(** ** The reporter and the dispatcher *)

Module PipelineProps.
Import Pipeline PipelineTerms.

Lemma quiet_refl w : quiet w w.
Proof. by repeat split. Qed.

Lemma sameLimiters_trans w1 w2 w3 :
  sameLimiters w1 w2 → sameLimiters w2 w3 → sameLimiters w1 w3.
Proof.
  intros (? & ? & ?) (? & ? & ?). repeat split; congruence.
Qed.

Lemma quiet_trans w1 w2 w3 : quiet w1 w2 → quiet w2 w3 → quiet w1 w3.
Proof.
  intros [? ?] [? ?]. split; [by eapply sameLimiters_trans|congruence].
Qed.

Section Monad.
Context {A B : Type}.

Lemma bind_returned (m : M A) (f : A → M B) w a w' :
  m w = (Returned a, w') → (m ≫= f) w = f a w'.
Proof. intros H. unfold mbind, M_bind. by rewrite H. Qed.

Lemma bind_threw (m : M A) (f : A → M B) w e w' :
  m w = (Threw e, w') → (m ≫= f) w = (Threw e, w').
Proof. intros H. unfold mbind, M_bind. by rewrite H. Qed.

Lemma tryCatch_returned (m : M A) (h : Thrown → M A) w a w' :
  m w = (Returned a, w') → tryCatch m h w = (Returned a, w').
Proof. intros H. unfold tryCatch. by rewrite H. Qed.

Lemma tryCatch_threw (m : M A) (h : Thrown → M A) w e w' :
  m w = (Threw e, w') → tryCatch m h w = h e w'.
Proof. intros H. unfold tryCatch. by rewrite H. Qed.

End Monad.

(** A send wrapped in the reporter's try/catch: it always returns, logs the
    attempt, writes to the console exactly when the send was rejected, and
    touches nothing else. *)
Lemma guarded_send label srv n w :
  ∃ w',
    tryCatch (notification srv n) (λ e, consoleError label e) w = (Returned (), w')
    ∧ quiet w w'
    ∧ sent w' = sent w ++ [(n, bool_decide (rejects srv (length (sent w)) n = None))]
    ∧ console w' = console w
                   ++ match rejects srv (length (sent w)) n with
                      | Some e => [(label, e)]
                      | None => []
                      end.
Proof.
  unfold tryCatch, notification, consoleError.
  destruct (rejects srv (length (sent w)) n) as [e|]; eexists; simpl;
    (split; [reflexivity|]); (split; [by repeat split|]); split; simpl;
    rewrite ?app_nil_r; reflexivity.
Qed.

Lemma messageOf_asError e : messageOf (asError e) = messageOf e.
Proof. by destruct e. Qed.

Lemma complete_spec pr message w :
  ∃ w' delivered,
    complete pr message w = (Returned (), w')
    ∧ quiet w w'
    ∧ sent w' = sent w
                ++ [(Complete (token pr)
                       (orDefault message (CompletedProcessing (current pr) (unit pr))),
                     delivered)].
Proof.
  unfold complete.
  destruct (guarded_send "Failed to send completion notification:" (server pr)
              (Complete (token pr)
                 (orDefault message (CompletedProcessing (current pr) (unit pr)))) w)
    as (w' & Hrun & Hquiet & Hsent & _).
  eauto 10.
Qed.

Lemma error_spec pr err w :
  ∃ w' delivered,
    error pr err w = (Returned (), w')
    ∧ quiet w w'
    ∧ sent w' = sent w ++ [(Error (token pr) (messageOf err), delivered)].
Proof.
  unfold error.
  destruct (guarded_send "Failed to send error notification:" (server pr)
              (Error (token pr) (messageOf err)) w)
    as (w' & Hrun & Hquiet & Hsent & _).
  eauto 10.
Qed.

Lemma report_spec pr increment message w :
  ∃ pr' w' note delivered,
    report pr increment message w = (Returned pr', w')
    ∧ quiet w w'
    ∧ token pr' = token pr ∧ unit pr' = unit pr
    ∧ current pr' = current pr + default 1 increment
    ∧ isTerminal note = false
    ∧ sent w' = sent w ++ [(note, delivered)].
Proof.
  unfold report.
  match goal with
  | |- context [tryCatch (notification ?srv ?n) ?h] =>
      destruct (guarded_send "Failed to send progress notification:" srv n w)
        as (w' & Hrun & Hquiet & Hsent & _)
  end.
  do 4 eexists. split.
  - erewrite bind_returned by exact Hrun. reflexivity.
  - split; [exact Hquiet|]. cbn [token unit current].
    split; [reflexivity|]. split; [reflexivity|]. split; [reflexivity|].
    split; [|exact Hsent]. reflexivity.
Qed.

Section Dispatch.
Variable Args : Type.
Variable handlers : string → Args → HandlerRun.

(** The handler's reporter calls never throw into the handler; they only
    append to the log, and [report] calls append no terminal notification. *)
Lemma replay_spec calls : ∀ pr w,
  ∃ pr' w' notes,
    replay pr calls w = (Returned pr', w')
    ∧ quiet w w'
    ∧ token pr' = token pr ∧ unit pr' = unit pr
    ∧ sent w' = sent w ++ notes
    ∧ (forallb onlyReports calls = true → Forall notTerminal notes).
Proof.
  induction calls as [|c rest IH]; intros pr w.
  - exists pr, w, []. simpl. rewrite app_nil_r.
    repeat split; constructor.
  - cbn [replay].
    assert (Hhead : ∃ pr1 w1 note delivered,
               (match c with
                | CallReport increment message => report pr increment message
                | CallComplete message => complete pr message ≫= λ _, mret pr
                | CallError e => error pr e ≫= λ _, mret pr
                end) w = (Returned pr1, w1)
               ∧ quiet w w1 ∧ token pr1 = token pr ∧ unit pr1 = unit pr
               ∧ sent w1 = sent w ++ [(note, delivered)]
               ∧ (onlyReports c = true → isTerminal note = false)).
    { destruct c as [increment message|message|e].
      - destruct (report_spec pr increment message w)
          as (pr1 & w1 & note & d & Hrun & Hq & Htok & Hunit & _ & Hnote & Hsent).
        exists pr1, w1, note, d. repeat split; try done; apply Hq.
      - destruct (complete_spec pr message w) as (w1 & d & Hrun & Hq & Hsent).
        do 4 eexists. split; [erewrite bind_returned by exact Hrun; reflexivity|].
        repeat split; try apply Hq; [exact Hsent|discriminate].
      - destruct (error_spec pr e w) as (w1 & d & Hrun & Hq & Hsent).
        do 4 eexists. split; [erewrite bind_returned by exact Hrun; reflexivity|].
        repeat split; try apply Hq; [exact Hsent|discriminate]. }
    destruct Hhead as (pr1 & w1 & note & d & Hrun & Hq1 & Htok1 & Hunit1 & Hsent1 & Hnote).
    destruct (IH pr1 w1) as (pr' & w' & notes & Hrest & Hq2 & Htok2 & Hunit2 & Hsent2 & Hnotes).
    exists pr', w', ((note, d) :: notes).
    split; [erewrite bind_returned by exact Hrun; exact Hrest|].
    split; [by eapply quiet_trans|].
    split; [congruence|]. split; [congruence|].
    split; [rewrite Hsent2, Hsent1, <- app_assoc; reflexivity|].
    simpl. intros [Hc Hall]%andb_prop. constructor; [by apply Hnote|by apply Hnotes].
Qed.

(** *** What one invocation amounts to *)

Lemma undefined_or_found (found : Property Args) :
  found = Undefined ∨ found ≠ Undefined.
Proof. destruct found; [right|right|left]; done. Qed.

Lemma withRequests_same c w : withRequests c (requestsOf c w) w = w.
Proof. by destruct c, w. Qed.

Lemma checkLimit_unfold c key now w :
  checkLimit c key now w
  = ((RateLimiter.checkLimit (limiterOf c) key now (requestsOf c w)).1,
     withRequests c (RateLimiter.checkLimit (limiterOf c) key now (requestsOf c w)).2 w).
Proof.
  unfold checkLimit.
  by destruct (RateLimiter.checkLimit (limiterOf c) key now (requestsOf c w)).
Qed.

Lemma checkLimit_channel c key now w :
  sent (checkLimit c key now w).2 = sent w
  ∧ console (checkLimit c key now w).2 = console w
  ∧ invoked (checkLimit c key now w).2 = invoked w.
Proof. rewrite checkLimit_unfold. by destruct c. Qed.

(** A rejection is a [McpToolError] and records nothing. *)
Lemma checkLimit_rejected c key now w e w1 :
  checkLimit c key now w = (Threw e, w1) →
  w1 = w ∧ ∃ err, e = McpToolErr err.
Proof.
  rewrite checkLimit_unfold. unfold RateLimiter.checkLimit.
  destruct (decide _); simpl; [|discriminate].
  intros [= <- <-]. rewrite withRequests_same. eauto.
Qed.

Lemma checkLimit_agree c key now w1 w2 :
  agree w1 w2 →
  (checkLimit c key now w1).1 = (checkLimit c key now w2).1
  ∧ agree (checkLimit c key now w1).2 (checkLimit c key now w2).2.
Proof.
  intros (Hs & Hn & Hg & Hi). rewrite !checkLimit_unfold. cbn [fst snd].
  assert (Hreq : requestsOf c w1 = requestsOf c w2) by (destruct c; simpl; congruence).
  rewrite Hreq. split; [done|].
  destruct c; repeat split; simpl; congruence.
Qed.

Lemma callHandler_spec found args pr w :
  found ≠ Undefined →
  ∃ pr' w' replayed,
    callHandler Args found args pr w
    = (match settle found args with
       | Returned toolResult => Returned (toolResult, pr')
       | Threw e => Threw e
       end, w')
    ∧ sameLimiters w w'
    ∧ invoked w' = invoked w ++ handlerLog found
    ∧ token pr' = token pr ∧ unit pr' = unit pr
    ∧ sent w' = sent w ++ replayed
    ∧ (forallb onlyReports (usesOf found args) = true → Forall notTerminal replayed).
Proof.
  intros Hfound. destruct found as [t| |]; [| |done].
  - cbn [callHandler settle usesOf handlerLog].
    set (w0 := (noteInvoked (name t) w).2).
    destruct (replay_spec (uses (handler t args)) pr w0)
      as (pr' & w' & notes & Hrun & [Hlim Hinv] & Htok & Hunit & Hsent & Hnotes).
    exists pr', w', notes.
    split.
    { erewrite bind_returned by reflexivity. fold w0.
      erewrite bind_returned by exact Hrun.
      by destruct (settles (handler t args)). }
    split; [exact Hlim|]. split; [by rewrite Hinv|].
    split; [done|]. split; [done|]. split; [exact Hsent|exact Hnotes].
  - exists pr, w, []. cbn [callHandler settle usesOf handlerLog].
    rewrite !app_nil_r. repeat split; constructor.
Qed.

(** An unknown name: the handler throws NotFound and the world is as it was. *)
Lemma callTool_unknown srv at_ request w :
  getProperty Args handlers (req_name request) = Undefined →
  callTool Args handlers srv at_ request w = (Threw (notFound (req_name request)), w).
Proof.
  intros Hnone. unfold callTool. rewrite Hnone. reflexivity.
Qed.

(** A rate-limit rejection passes through the catch clause unchanged. *)
Lemma callTool_limited srv at_ request w e w1 :
  getProperty Args handlers (req_name request) ≠ Undefined →
  checkLimit (selectRateLimiter (req_name request)) (req_name request) (now at_) w
  = (Threw e, w1) →
  callTool Args handlers srv at_ request w = (Threw e, w).
Proof.
  intros Hfound Hlimit.
  destruct (checkLimit_rejected _ _ _ _ _ _ Hlimit) as [-> [err ->]].
  unfold callTool.
  destruct (getProperty Args handlers (req_name request)) eqn:Hget; [| |done];
    (erewrite tryCatch_threw
       by (apply bind_threw; unfold withRateLimit; apply bind_threw; exact Hlimit);
     reflexivity).
Qed.

(** A call that passed the lookup and the limiter: the handler's call
    settles, the reporter sends one closing notification after whatever the
    handler reported, and the outcome is the envelope of the settled call. *)
Lemma callTool_passed srv at_ request w w1 :
  getProperty Args handlers (req_name request) ≠ Undefined →
  checkLimit (selectRateLimiter (req_name request)) (req_name request) (now at_) w
  = (Returned (), w1) →
  let found := getProperty Args handlers (req_name request) in
  let settled := settle found (req_arguments request) in
  ∃ w2 replayed closing delivered,
    callTool Args handlers srv at_ request w = (envelope settled, w2)
    ∧ sameLimiters w1 w2
    ∧ invoked w2 = invoked w ++ handlerLog found
    ∧ sent w2 = sent w ++ replayed ++ [(closing, delivered)]
    ∧ closes (fresh at_) settled closing
    ∧ (forallb onlyReports (usesOf found (req_arguments request)) = true →
       Forall notTerminal replayed).
Proof.
  intros Hfound Hlimit found settled.
  destruct (checkLimit_channel (selectRateLimiter (req_name request))
              (req_name request) (now at_) w) as (Hsent1 & _ & Hinv1).
  rewrite Hlimit in Hsent1, Hinv1. cbn [snd] in Hsent1, Hinv1.
  set (options := {| opt_title := "Executing " +:+ req_name request;
                     opt_total := None; opt_unit := Some "operations" |}).
  set (progress := newReporter srv (fresh at_) options).
  destruct (callHandler_spec found (req_arguments request) progress w1 Hfound)
    as (pr' & w' & replayed & Hcall & Hlim & Hinv & Htok & Hunit & Hsent & Hnotes).
  fold settled in Hcall.
  assert (Hbody : ∃ w2 closing delivered,
            withProgress srv options (fresh at_)
              (λ progress,
                 callHandler Args found (req_arguments request) progress
                 ≫= λ '(toolResult, progress'),
                 complete progress' None ≫= λ _, mret toolResult) w1
            = (settled, w2)
            ∧ quiet w' w2
            ∧ sent w2 = sent w' ++ [(closing, delivered)]
            ∧ closes (fresh at_) settled closing).
  { unfold withProgress. fold progress.
    destruct settled as [toolResult|e] eqn:Hsettled.
    - destruct (complete_spec pr' None w') as (w2 & d & Hdone & Hq & Hs).
      exists w2; eexists; exists d. split; [|split; [exact Hq|split; [exact Hs|]]].
      + erewrite tryCatch_returned; [reflexivity|].
        erewrite bind_returned by exact Hcall. cbn beta iota.
        erewrite bind_returned by exact Hdone. reflexivity.
      + rewrite Htok, Hunit. eexists. reflexivity.
    - destruct (error_spec progress (asError e) w') as (w2 & d & Hdone & Hq & Hs).
      exists w2; eexists; exists d. split; [|split; [exact Hq|split; [exact Hs|]]].
      + erewrite tryCatch_threw; [|apply bind_threw; exact Hcall].
        erewrite bind_returned by exact Hdone. reflexivity.
      + simpl. by rewrite messageOf_asError. }
  destruct Hbody as (w2 & closing & d & Hbody & [Hlim2 Hinv2] & Hsent2 & Hcloses).
  exists w2, replayed, closing, d.
  split; [|split; [by eapply sameLimiters_trans|split; [|split; [|split; [exact Hcloses|exact Hnotes]]]]].
  - unfold callTool. fold found.
    assert (Hlimited :
              withRateLimit (selectRateLimiter (req_name request)) (req_name request) (now at_)
                (withProgress srv options (fresh at_)
                   (λ progress,
                      callHandler Args found (req_arguments request) progress
                      ≫= λ '(toolResult, progress'),
                      complete progress' None ≫= λ _, mret toolResult)) w
              = (settled, w2)).
    { unfold withRateLimit. erewrite bind_returned by exact Hlimit. exact Hbody. }
    destruct found eqn:Hget; [| |done].
    all: destruct settled as [toolResult|e] eqn:Hsettled.
    all: try (erewrite tryCatch_returned;
              [reflexivity|erewrite bind_returned by exact Hlimited; reflexivity]).
    all: erewrite tryCatch_threw by (apply bind_threw; exact Hlimited).
    all: by destruct e.
  - rewrite Hinv2, Hinv, Hinv1. reflexivity.
  - rewrite Hsent2, Hsent, Hsent1, <- app_assoc. reflexivity.
Qed.

(** *** Counting the closing notifications *)

Lemma completions_app l1 l2 : completions (l1 ++ l2) = (completions l1 + completions l2)%nat.
Proof. unfold completions. by rewrite List.filter_app, length_app. Qed.

Lemma failures_app l1 l2 : failures (l1 ++ l2) = (failures l1 + failures l2)%nat.
Proof. unfold failures. by rewrite List.filter_app, length_app. Qed.

Lemma notTerminal_counts l :
  Forall notTerminal l → completions l = 0%nat ∧ failures l = 0%nat.
Proof.
  unfold completions, failures, notTerminal, isTerminal.
  induction 1 as [|[n d] l Hn _ [IHc IHf]]; [done|].
  simpl in *. apply orb_false_elim in Hn as [-> ->]. done.
Qed.

(** C2. When the named tool is registered, the limiter lets the call
    through and the handler uses its reporter for [report] only (no
    registered handler uses it at all), the handler is invoked once and
    the invocation sends exactly one closing notification: one completion
    and no error when the handler returns, one error carrying the thrown
    error's message (or 'Unknown error' for a value that is not an Error)
    and no completion when it throws. *)
Theorem one_closing_notification srv at_ request w t :
  getProperty Args handlers (req_name request) = Own t →
  (checkLimit (selectRateLimiter (req_name request)) (req_name request) (now at_) w).1
  = Returned () →
  forallb onlyReports (uses (handler t (req_arguments request))) = true →
  ∃ notes,
    sent (callTool Args handlers srv at_ request w).2 = sent w ++ notes
    ∧ invoked (callTool Args handlers srv at_ request w).2 = invoked w ++ [name t]
    ∧ match settles (handler t (req_arguments request)) with
      | Returned _ => completions notes = 1%nat ∧ failures notes = 0%nat
      | Threw e =>
          failures notes = 1%nat ∧ completions notes = 0%nat
          ∧ ∃ delivered, last notes = Some (Error (fresh at_) (messageOf e), delivered)
      end.
Proof.
  intros Hget Hlimit Hreports.
  destruct (checkLimit (selectRateLimiter (req_name request)) (req_name request) (now at_) w)
    as [o w1] eqn:Hcheck. simpl in Hlimit. subst o.
  destruct (callTool_passed srv at_ request w w1) as
    (w2 & replayed & closing & d & Hrun & _ & Hinv & Hsent & Hcloses & Hquiet);
    [by rewrite Hget|exact Hcheck|].
  rewrite Hget in Hinv, Hcloses, Hquiet. cbn [handlerLog settle usesOf] in *.
  destruct (notTerminal_counts replayed (Hquiet Hreports)) as [Hc Hf].
  exists (replayed ++ [(closing, d)]). rewrite Hrun. cbn [snd].
  split; [exact Hsent|]. split; [exact Hinv|].
  rewrite completions_app, failures_app, Hc, Hf.
  destruct (settles (handler t (req_arguments request))) as [toolResult|e]; simpl in Hcloses.
  - destruct Hcloses as [count ->]. done.
  - subst closing. repeat split. exists d. apply last_snoc.
Qed.

(** C3 (amended). An invocation has one outcome. A failure that is a
    [McpToolError] is thrown on to the SDK as it is, not wrapped: the
    unknown tool name (MethodNotFound), the limiter's rejection of a call
    to a registered tool, and a [McpToolError] a handler throws. Any other
    error a registered handler throws is returned as
    [{content: [{type: 'text', text: 'Internal error: ...'}], _meta: {isError: true}}].
    Nothing but a [McpToolError] is ever thrown to the caller. *)
Theorem failures_rethrown_or_wrapped srv at_ request w :
  (∀ e, (callTool Args handlers srv at_ request w).1 = Threw e → ∃ err, e = McpToolErr err)
  ∧ (getProperty Args handlers (req_name request) = Undefined →
     callTool Args handlers srv at_ request w = (Threw (notFound (req_name request)), w))
  ∧ (∀ t e,
       getProperty Args handlers (req_name request) = Own t →
       (checkLimit (selectRateLimiter (req_name request)) (req_name request) (now at_) w).1
       = Threw e →
       callTool Args handlers srv at_ request w = (Threw e, w)
       ∧ ∃ err, e = McpToolErr err)
  ∧ (∀ t e,
       getProperty Args handlers (req_name request) = Own t →
       (checkLimit (selectRateLimiter (req_name request)) (req_name request) (now at_) w).1
       = Returned () →
       settles (handler t (req_arguments request)) = Threw e →
       (callTool Args handlers srv at_ request w).1
       = match e with
         | McpToolErr _ => Threw e
         | _ => Returned {| res_content := [ {| type := "text";
                                                text := "Internal error: " +:+ messageOf e |} ];
                            _meta := Some {| meta_isError := true |} |}
         end).
Proof.
  destruct (checkLimit (selectRateLimiter (req_name request)) (req_name request) (now at_) w)
    as [o w1] eqn:Hcheck.
  assert (Hrejected : ∀ e, o = Threw e →
            getProperty Args handlers (req_name request) ≠ Undefined →
            callTool Args handlers srv at_ request w = (Threw e, w)
            ∧ ∃ err, e = McpToolErr err).
  { intros e -> Hfound.
    split; [by eapply callTool_limited|].
    by destruct (checkLimit_rejected _ _ _ _ _ _ Hcheck) as [_ ?]. }
  assert (Hpassed : o = Returned () →
            getProperty Args handlers (req_name request) ≠ Undefined →
            (callTool Args handlers srv at_ request w).1
            = envelope (settle (getProperty Args handlers (req_name request))
                               (req_arguments request))).
  { intros -> Hfound.
    destruct (callTool_passed srv at_ request w w1 Hfound Hcheck)
      as (w2 & ? & ? & ? & Hrun & _). by rewrite Hrun. }
  split; [|split; [|split]].
  - intros e He.
    destruct (undefined_or_found (getProperty Args handlers (req_name request)))
      as [Hnone|Hfound].
    + rewrite (callTool_unknown _ _ _ _ Hnone) in He. injection He as <-.
      unfold notFound. eauto.
    + destruct o as [[]|e'].
      * rewrite (Hpassed eq_refl Hfound) in He.
        destruct (settle _ _) as [?|[err| |]]; simpl in He; try discriminate.
        injection He as <-. eauto.
      * destruct (Hrejected e' eq_refl Hfound) as [Hrun Herr].
        rewrite Hrun in He. injection He as <-. exact Herr.
  - apply callTool_unknown.
  - intros t e Hget He. simpl in He. apply Hrejected; [done|by rewrite Hget].
  - intros t e Hget Ho Hthrows. simpl in Ho.
    rewrite (Hpassed Ho) by (by rewrite Hget).
    rewrite Hget. cbn [settle]. rewrite Hthrows. by destruct e.
Qed.

(** C6. [report], [complete] and [error] return normally whatever the
    send does, and write the rejection to the console; and two runs of an
    invocation that differ only in which sends are rejected end with the
    same outcome for the caller, the same limiter state and the same
    handlers invoked. *)
Theorem notification_failures_swallowed srv1 srv2 at_ request w1 w2 :
  agree w1 w2 →
  ((callTool Args handlers srv1 at_ request w1).1
   = (callTool Args handlers srv2 at_ request w2).1
   ∧ agree (callTool Args handlers srv1 at_ request w1).2
           (callTool Args handlers srv2 at_ request w2).2)
  ∧ (∀ pr increment message w,
       ∃ pr' label note,
         (report pr increment message w).1 = Returned pr'
         ∧ ∀ e, rejects (server pr) (length (sent w)) note = Some e →
                console (report pr increment message w).2 = console w ++ [(label, e)])
  ∧ (∀ pr message w,
       ∃ label note,
         (complete pr message w).1 = Returned ()
         ∧ ∀ e, rejects (server pr) (length (sent w)) note = Some e →
                console (complete pr message w).2 = console w ++ [(label, e)])
  ∧ (∀ pr err w,
       ∃ label note,
         (error pr err w).1 = Returned ()
         ∧ ∀ e, rejects (server pr) (length (sent w)) note = Some e →
                console (error pr err w).2 = console w ++ [(label, e)]).
Proof.
  intros Hagree. split; [|split; [|split]].
  - destruct (undefined_or_found (getProperty Args handlers (req_name request)))
      as [Hnone|Hfound].
    { rewrite !(callTool_unknown _ _ _ _ Hnone). done. }
    destruct (checkLimit_agree (selectRateLimiter (req_name request)) (req_name request)
                (now at_) w1 w2 Hagree) as [Hsame Hafter].
    destruct (checkLimit (selectRateLimiter (req_name request)) (req_name request) (now at_) w1)
      as [o1 v1] eqn:Hc1.
    destruct (checkLimit (selectRateLimiter (req_name request)) (req_name request) (now at_) w2)
      as [o2 v2] eqn:Hc2.
    simpl in Hsame, Hafter. subst o2. destruct o1 as [[]|e].
    + destruct (callTool_passed srv1 at_ request w1 v1 Hfound Hc1)
        as (u1 & ? & ? & ? & Hrun1 & (Hs1 & Hn1 & Hg1) & Hi1 & _).
      destruct (callTool_passed srv2 at_ request w2 v2 Hfound Hc2)
        as (u2 & ? & ? & ? & Hrun2 & (Hs2 & Hn2 & Hg2) & Hi2 & _).
      rewrite Hrun1, Hrun2. split; [done|].
      destruct Hafter as (? & ? & ? & ?), Hagree as (_ & _ & _ & Hinv).
      repeat split; simpl; congruence.
    + rewrite (callTool_limited srv1 at_ request w1 e v1 Hfound Hc1).
      rewrite (callTool_limited srv2 at_ request w2 e v2 Hfound Hc2). done.
  - intros pr increment message w. unfold report.
    match goal with
    | |- context [tryCatch (notification ?srv ?n) (λ error, consoleError ?l error)] =>
        destruct (guarded_send l srv n w) as (w' & Hrun & _ & _ & Hconsole);
        eexists; exists l, n
    end.
    erewrite bind_returned by exact Hrun. unfold mret, M_ret. cbn [fst snd].
    split; [reflexivity|].
    intros e He. rewrite Hconsole. cbn [server] in He |- *. by rewrite He.
  - intros pr message w. unfold complete.
    match goal with
    | |- context [tryCatch (notification ?srv ?n) (λ error, consoleError ?l error)] =>
        destruct (guarded_send l srv n w) as (w' & Hrun & _ & _ & Hconsole);
        exists l, n
    end.
    rewrite Hrun. split; [reflexivity|].
    intros e He. cbn [snd]. rewrite Hconsole. by rewrite He.
  - intros pr err w. unfold error.
    match goal with
    | |- context [tryCatch (notification ?srv ?n) (λ error, consoleError ?l error)] =>
        destruct (guarded_send l srv n w) as (w' & Hrun & _ & _ & Hconsole);
        exists l, n
    end.
    rewrite Hrun. split; [reflexivity|].
    intros e He. cbn [snd]. rewrite Hconsole. by rewrite He.
Qed.

(** *** The registry *)

Lemma registered name t :
  allTools Args handlers !! name = Some t → name ∈ registeredNames.
Proof.
  intros Hin. apply elem_of_map_to_list in Hin.
  apply (list_elem_of_fmap_2 fst) in Hin. simpl in Hin.
  revert Hin. vm_compute (fst <$> map_to_list (allTools Args handlers)).
  unfold registeredNames. rewrite !elem_of_cons, !elem_of_nil. tauto.
Qed.


(** C4, at the input where the code departs from it. 'toString' names no
    tool, yet [allTools['toString']] finds [Object.prototype.toString], the
    [!tool] test passes, the system limiter records the call, and the
    caller gets an internal-error envelope instead of MethodNotFound. No
    handler runs. *)
Theorem inherited_name_slips_past_lookup srv at_ args :
  let request := {| req_name := "toString"; req_arguments := args |} in
  let after := callTool Args handlers srv at_ request emptyWorld in
  allTools Args handlers !! "toString" = None
  ∧ after.1 = Returned {| res_content :=
                            [ {| type := "text";
                                 text := "Internal error: tool.handler is not a function" |} ];
                          _meta := Some {| meta_isError := true |} |}
  ∧ systemRequests after.2 !! "toString" = Some [now at_]
  ∧ invoked after.2 = [].
Proof.
  intros request after.
  assert (Hnone : allTools Args handlers !! "toString" = None) by reflexivity.
  assert (Hget : getProperty Args handlers (req_name request) = Inherited) by reflexivity.
  destruct (callTool_passed srv at_ request emptyWorld
              (withRequests System {[ "toString" := [now at_] ]} emptyWorld))
    as (w2 & ? & ? & ? & Hrun & (Hsys & _ & _) & Hinv & _).
  - by rewrite Hget.
  - reflexivity.
  - fold after in Hrun. rewrite Hrun. rewrite Hget in Hinv. cbn [fst snd].
    split; [exact Hnone|]. split; [reflexivity|]. split; [|exact Hinv].
    rewrite Hsys. reflexivity.
Qed.

End Dispatch.

(** *** Sample runs *)

(** Instances: a handler that reports and throws while the channel is
    down, and a handler that returns. *)
Lemma one_closing_notification_witness :
  (∃ notes,
     sent (callTool () sampleHandlers disconnected noon (call "pingHost") emptyWorld).2 = notes
     ∧ failures notes = 1%nat ∧ completions notes = 0%nat
     ∧ ∃ delivered,
         last notes = Some (Error "progress-43200000-k3x9" "Ping failed: timeout", delivered))
  ∧ (∃ notes,
       sent (callTool () sampleHandlers reliable noon (call "hashData") emptyWorld).2 = notes
       ∧ completions notes = 1%nat ∧ failures notes = 0%nat).
Proof.
  split.
  - edestruct (one_closing_notification () sampleHandlers disconnected noon
                 (call "pingHost") emptyWorld) as (notes & Hsent & _ & Hcount).
    + reflexivity.
    + reflexivity.
    + reflexivity.
    + exists notes. split; [exact Hsent|]. exact Hcount.
  - edestruct (one_closing_notification () sampleHandlers reliable noon
                 (call "hashData") emptyWorld) as (notes & Hsent & _ & Hcount).
    + reflexivity.
    + reflexivity.
    + reflexivity.
    + exists notes. split; [exact Hsent|]. exact Hcount.
Defined.

(** An instance: the same call over a working and over a dead channel. *)
Lemma notification_failures_swallowed_witness :
  (callTool () sampleHandlers reliable noon (call "pingHost") emptyWorld).1
  = (callTool () sampleHandlers disconnected noon (call "pingHost") emptyWorld).1
  ∧ console (callTool () sampleHandlers reliable noon (call "pingHost") emptyWorld).2 = []
  ∧ length (console (callTool () sampleHandlers disconnected noon (call "pingHost")
                              emptyWorld).2) = 2%nat.
Proof.
  destruct (notification_failures_swallowed () sampleHandlers reliable disconnected noon
              (call "pingHost") emptyWorld emptyWorld) as [[Hsame _] _].
  - repeat split.
  - split; [exact Hsame|]. split; reflexivity.
Defined.


(** C3, as stated, fails before the handler runs: a call to a name that
    is neither a tool nor an inherited property is answered by throwing
    the MethodNotFound error, and the 101st call to a registered tool
    within a minute by throwing the limiter's error; neither is an
    envelope. *)
Lemma pipeline_failures_are_thrown :
  let busy := Nat.iter 100
                (λ w, (callTool () sampleHandlers reliable noon (call "hashData") w).2)
                emptyWorld in
  (callTool () sampleHandlers reliable noon (call "nope") emptyWorld).1
  = Threw (McpToolErr {| code := MethodNotFound;
                         message := "Tool not found: nope";
                         data := None |})
  ∧ (callTool () sampleHandlers reliable noon (call "hashData") busy).1
    = Threw (McpToolErr {| code := InternalError;
                           message := "Too many system operations. Please try again in a moment.";
                           data := Some (ResetInSeconds (Num 60)) |})
  ∧ (∀ result,
       (callTool () sampleHandlers reliable noon (call "nope") emptyWorld).1
       ≠ Returned result).
Proof.
  vm_compute. split; [reflexivity|]. split; [reflexivity|]. discriminate.
Qed.

End PipelineProps.

(** * Further properties *)

(** ** More on the sliding-window limiter *)

Module RateLimiterLaws.
Import RateLimiter RateLimiterTerms LimiterRuns RateLimiterProps.

Section Laws.
Variable cfg : RateLimitConfig.

(** *** The memory bound *)

Lemma withinBudget_step now c requests :
  withinBudget cfg requests → withinBudget cfg (step cfg now c requests).2.
Proof.
  intros Hin key'. destruct c as [k|k|k|]; simpl.
  - unfold checkLimit.
    destruct (decide (maxRequests cfg
                      <= Z.of_nat (length (validTimestamps cfg now (timestampsOf k requests)))))
      as [Hfull|Hroom]; simpl; [apply Hin|].
    rewrite timestampsOf_insert. destruct (decide (k = key')); [|apply Hin].
    rewrite length_app. cbn [length]. revert Hroom. generalize (length (validTimestamps cfg now (timestampsOf k requests))). intros n Hroom. lia.
  - apply Hin.
  - rewrite (surjective_pairing (getTimeToReset cfg k now requests)).
    cbn [snd]. rewrite getTimeToReset_state. apply Hin.
  - rewrite timestampsOf_cleanup. specialize (Hin key').
    pose proof (length_filter (λ time, now - time < windowMs cfg) (timestampsOf key' requests)).
    unfold validTimestamps. lia.
Qed.

Lemma withinBudget_run calls : ∀ requests,
  withinBudget cfg requests → withinBudget cfg (run cfg calls requests).2.
Proof.
  induction calls as [|[now c] rest IH]; intros requests Hin; [done|].
  rewrite run_cons. cbn [snd]. apply IH. by apply withinBudget_step.
Qed.

Lemma stored_timestamps_bounded_aux calls key :
  Z.of_nat (length (timestampsOf key (run cfg calls ∅).2)) <= Z.max 0 (maxRequests cfg).
Proof.
  apply withinBudget_run. intros k. unfold timestampsOf.
  rewrite lookup_empty. simpl. lia.
Qed.

(** X1. Whatever calls were made, at whatever clock readings, no key ever
    holds more than [maxRequests] timestamps (none at all when
    [maxRequests] is not positive). *)
Theorem stored_timestamps_bounded calls key :
  Z.of_nat (length (timestampsOf key (run cfg calls ∅).2)) <= Z.max 0 (maxRequests cfg).
Proof.
  apply withinBudget_run. intros k. unfold timestampsOf.
  rewrite lookup_empty. simpl. lia.
Qed.

(** *** The sweep *)

Lemma valid_idem now l :
  validTimestamps cfg now (validTimestamps cfg now l) = validTimestamps cfg now l.
Proof. apply valid_later. lia. Qed.

Lemma valid_Forall now l :
  Forall (λ time, now - time < windowMs cfg) (validTimestamps cfg now l).
Proof.
  apply Forall_forall. intros time Hin.
  by apply list_elem_of_filter in Hin as [? _].
Qed.

(** X2. After [cleanup()] every key left in the map holds a non-empty
    array of timestamps that are all inside the window, namely the valid
    ones it held before; a key with nothing valid is gone; and a second
    sweep at the same instant changes nothing. *)
Theorem cleanup_leaves_live_keys now requests :
  (∀ key l, cleanup cfg now requests !! key = Some l →
     l ≠ [] ∧ Forall (λ time, now - time < windowMs cfg) l
     ∧ l = validTimestamps cfg now (timestampsOf key requests))
  ∧ (∀ key, validTimestamps cfg now (timestampsOf key requests) = [] →
       cleanup cfg now requests !! key = None)
  ∧ cleanup cfg now (cleanup cfg now requests) = cleanup cfg now requests.
Proof.
  assert (Hlookup : ∀ key,
            cleanup cfg now requests !! key
            = match validTimestamps cfg now (timestampsOf key requests) with
              | [] => None
              | valid => Some valid
              end).
  { intros key. unfold cleanup, timestampsOf. rewrite lookup_omap.
    destruct (requests !! key) as [l|]; simpl; [|done].
    by destruct (validTimestamps cfg now l). }
  split; [|split].
  - intros key l. rewrite Hlookup.
    pose proof (valid_Forall now (timestampsOf key requests)) as Hall.
    destruct (validTimestamps cfg now (timestampsOf key requests)) as [|x v]; [done|].
    intros [= <-]. done.
  - intros key Hnone. by rewrite Hlookup, Hnone.
  - apply map_eq. intros key. unfold cleanup at 1. rewrite lookup_omap, Hlookup.
    pose proof (valid_idem now (timestampsOf key requests)) as Hidem.
    destruct (validTimestamps cfg now (timestampsOf key requests)) as [|x v]; [done|].
    simpl. by rewrite Hidem.
Qed.

(** *** Calls that do not concern a key *)

Lemma alike_later K t0 t1 requests1 requests2 :
  t0 <= t1 → alike cfg K t0 requests1 requests2 → alike cfg K t1 requests1 requests2.
Proof. intros Hle Hal key HK now Hnow. apply Hal; [done|lia]. Qed.

(** A call about a key of [K] gets the same reply from alike maps, and
    leaves them alike. *)
Lemma step_alike_kept K t0 now c requests1 requests2 :
  about K c = true → t0 <= now → alike cfg K t0 requests1 requests2 →
  (step cfg now c requests1).1 = (step cfg now c requests2).1
  ∧ alike cfg K now (step cfg now c requests1).2 (step cfg now c requests2).2.
Proof.
  intros Habout Hclock Hal.
  pose proof (alike_later K t0 now _ _ Hclock Hal) as Hal'.
  destruct c as [k|k|k|]; simpl in Habout; [| | |done].
  - pose proof (Hal k Habout now Hclock) as Hsame.
    simpl. unfold checkLimit. rewrite Hsame.
    destruct (decide (maxRequests cfg
                      <= Z.of_nat (length (validTimestamps cfg now (timestampsOf k requests2)))));
      simpl; [done|].
    split; [done|]. intros key HK later Hlater.
    rewrite !timestampsOf_insert. destruct (decide (k = key)); [done|by apply Hal'].
  - simpl. unfold getRemainingRequests. cbn [fst snd].
    by rewrite (Hal k Habout now Hclock).
  - pose proof (Hal k Habout now Hclock) as Hsame.
    pose proof (getTimeToReset_state cfg k now requests1) as Hs1.
    pose proof (getTimeToReset_state cfg k now requests2) as Hs2.
    assert (Hval : (getTimeToReset cfg k now requests1).1 = (getTimeToReset cfg k now requests2).1).
    { unfold getTimeToReset. rewrite Hsame.
      by destruct (validTimestamps cfg now (timestampsOf k requests2)). }
    simpl. destruct (getTimeToReset cfg k now requests1) as [n1 r1],
                    (getTimeToReset cfg k now requests2) as [n2 r2].
    simpl in *. subst. done.
Qed.

(** A sweep, or a call about a key outside [K], leaves the map alike. *)
Lemma step_alike_dropped K t0 now c requests1 requests2 :
  about K c = false → t0 <= now → alike cfg K t0 requests1 requests2 →
  alike cfg K now (step cfg now c requests1).2 requests2.
Proof.
  intros Habout Hclock Hal.
  pose proof (alike_later K t0 now _ _ Hclock Hal) as Hal'.
  destruct c as [k|k|k|]; simpl in Habout.
  - simpl. unfold checkLimit.
    destruct (decide (maxRequests cfg
                      <= Z.of_nat (length (validTimestamps cfg now (timestampsOf k requests1)))));
      simpl; [done|].
    intros key HK later Hlater. rewrite timestampsOf_insert.
    destruct (decide (k = key)) as [->|]; [congruence|by apply Hal'].
  - done.
  - rewrite (surjective_pairing (step cfg now (GetTimeToReset k) requests1)).
    by rewrite step_introspection.
  - simpl. intros key HK later Hlater.
    rewrite timestampsOf_cleanup, valid_later by done. by apply Hal'.
Qed.

Lemma run_alike K calls : ∀ t0 requests1 requests2,
  clockFrom t0 calls → alike cfg K t0 requests1 requests2 →
  List.filter (λ e, about K e.1.2) (run cfg calls requests1).1
  = (run cfg (List.filter (λ tc, about K tc.2) calls) requests2).1.
Proof.
  induction calls as [|[now c] rest IH]; intros t0 requests1 requests2 Hclock Hal; [done|].
  destruct Hclock as [Hnow Hrest].
  rewrite run_cons. cbn [fst List.filter]. cbn [fst snd].
  destruct (about K c) eqn:Habout.
  - destruct (step_alike_kept K t0 now c _ _ Habout Hnow Hal) as [Hreply Hal'].
    rewrite run_cons. cbn [fst]. rewrite Hreply. f_equal. by eapply IH.
  - eapply IH; [done|]. by eapply step_alike_dropped.
Qed.

Lemma alike_refl K t0 requests : alike cfg K t0 requests requests.
Proof. by intros key HK now Hnow. Qed.

(** X3. While the clock does not run backwards, sweeping is invisible:
    the replies to all other calls are those of the same calls made
    without any [cleanup()] in between. *)
Theorem cleanup_is_invisible t0 calls requests :
  clockFrom t0 calls →
  List.filter (λ e, about anyKey e.1.2) (run cfg calls requests).1
  = (run cfg (List.filter (λ tc, about anyKey tc.2) calls) requests).1.
Proof. intros Hclock. eapply run_alike; [done|apply alike_refl]. Qed.

(** X4. While the clock does not run backwards, the replies to the calls
    for one key are those of these calls made alone: calls for other keys
    (and sweeps) never use up or restore a key's budget. *)
Theorem keys_are_independent key t0 calls requests :
  clockFrom t0 calls →
  List.filter (λ e, about (only key) e.1.2) (run cfg calls requests).1
  = (run cfg (List.filter (λ tc, about (only key) tc.2) calls) requests).1.
Proof. intros Hclock. eapply run_alike; [done|apply alike_refl]. Qed.

(** *** Admission and the remaining budget *)

(** X5. With a positive window, [checkLimit(key)] succeeds exactly when
    [getRemainingRequests(key)] is positive at that instant, and a
    successful call lowers what remains at that instant by one. *)
Theorem checkLimit_spends_one key now requests :
  0 < windowMs cfg →
  is_returned (checkLimit cfg key now requests).1
  = bool_decide (0 < (getRemainingRequests cfg key now requests).1)
  ∧ (0 < (getRemainingRequests cfg key now requests).1 →
     (getRemainingRequests cfg key now (checkLimit cfg key now requests).2).1
     = (getRemainingRequests cfg key now requests).1 - 1).
Proof.
  intros Hwin. unfold checkLimit, getRemainingRequests. cbn [fst snd].
  set (valid := validTimestamps cfg now (timestampsOf key requests)).
  destruct (decide (maxRequests cfg <= Z.of_nat (length valid))) as [Hfull|Hroom];
    cbn [fst snd is_returned].
  - split; [|lia]. symmetry. apply bool_decide_eq_false. lia.
  - split; [symmetry; apply bool_decide_eq_true; lia|]. intros _.
    rewrite timestampsOf_insert, decide_True by done.
    rewrite valid_app. unfold valid at 1. rewrite valid_idem. fold valid.
    unfold validTimestamps at 1. rewrite filter_cons_True by lia.
    rewrite filter_nil, length_app. cbn [length]. lia.
Qed.

(** X6. The retry hint is honest. When [checkLimit(key)] rejects a call
    with [resetInSeconds = r], the same call made [r] seconds later or
    more, with no call for that key in between, is let through. *)
Theorem retry_after_reset_succeeds calls key now err r later :
  (checkLimit cfg key now (run cfg calls ∅).2).1 = Threw (McpToolErr err) →
  data err = Some (ResetInSeconds (Num r)) →
  now + 1000 * r <= later →
  (checkLimit cfg key later (run cfg calls ∅).2).1 = Returned ().
Proof.
  pose proof (stored_timestamps_bounded_aux calls key) as Hbound.
  set (requests := (run cfg calls ∅).2) in *.
  unfold checkLimit.
  destruct (decide (maxRequests cfg
                    <= Z.of_nat (length (validTimestamps cfg now (timestampsOf key requests)))))
    as [Hfull|]; [|discriminate].
  cbn [fst]. intros [= <-]. cbn [data].
  destruct (validTimestamps cfg now (timestampsOf key requests)) as [|oldest others] eqn:Hvalid;
    [discriminate|].
  cbn [untilOldestExpires ceilSeconds]. intros [= <-] Hlater.
  assert (Hin : oldest ∈ timestampsOf key requests).
  { assert (Hv : oldest ∈ validTimestamps cfg now (timestampsOf key requests))
      by (rewrite Hvalid; apply list_elem_of_here).
    by apply list_elem_of_filter in Hv as [_ ?]. }
  assert (Hexpired : ¬ (later - oldest < windowMs cfg)).
  { unfold ceil_div in Hlater.
    pose proof (Z.mul_div_le (- (oldest + windowMs cfg - now)) 1000). lia. }
  pose proof (length_filter_lt (λ time, later - time < windowMs cfg) _ _ Hin Hexpired) as Hfewer.
  fold (validTimestamps cfg later (timestampsOf key requests)) in Hfewer.
  assert (0 < length (timestampsOf key requests))%nat
    by (destruct (timestampsOf key requests); [by apply elem_of_nil in Hin|simpl; lia]).
  rewrite decide_False by lia. done.
Qed.

(** *** The order of the stored timestamps *)

Lemma StronglySorted_valid now l :
  StronglySorted Z.le l → StronglySorted Z.le (validTimestamps cfg now l).
Proof.
  unfold validTimestamps. induction 1 as [|x l Hl IH Hx]; [constructor|].
  rewrite filter_cons. destruct (decide (now - x < windowMs cfg)); [|done].
  constructor; [done|]. apply Forall_forall. intros y Hy.
  apply list_elem_of_filter in Hy as [_ Hy]. rewrite Forall_forall in Hx. by apply Hx.
Qed.

Lemma valid_not_after now t l :
  Forall (λ time, time <= t) l → Forall (λ time, time <= t) (validTimestamps cfg now l).
Proof.
  intros Hall. apply Forall_forall. intros y Hy.
  apply list_elem_of_filter in Hy as [_ Hy]. rewrite Forall_forall in Hall. by apply Hall.
Qed.

Lemma inClockOrder_step t0 now c requests :
  t0 <= now → inClockOrder t0 requests → inClockOrder now (step cfg now c requests).2.
Proof.
  intros Hclock Hord.
  assert (Hkeep : inClockOrder now requests).
  { intros k. destruct (Hord k) as [Hs Hle]. split; [done|].
    eapply Forall_impl; [exact Hle|]. simpl. intros; lia. }
  destruct c as [k|k|k|].
  - simpl. unfold checkLimit.
    destruct (decide (maxRequests cfg
                      <= Z.of_nat (length (validTimestamps cfg now (timestampsOf k requests)))));
      simpl; [done|].
    intros key. rewrite timestampsOf_insert. destruct (decide (k = key)); [|apply Hkeep].
    destruct (Hkeep k) as [Hs Hle].
    pose proof (valid_not_after now now _ Hle) as Hle'.
    split.
    + apply StronglySorted_app_2; [|by apply StronglySorted_valid|repeat constructor].
      intros x1 x2 Hx1 ->%list_elem_of_singleton.
      rewrite Forall_forall in Hle'. by apply Hle'.
    + apply Forall_app. split; [done|]. by constructor.
  - done.
  - rewrite (surjective_pairing (step cfg now (GetTimeToReset k) requests)).
    by rewrite step_introspection.
  - simpl. intros key. rewrite timestampsOf_cleanup. destruct (Hkeep key) as [Hs Hle].
    split; [by apply StronglySorted_valid|by apply valid_not_after].
Qed.

Lemma inClockOrder_run calls : ∀ t0 requests,
  clockFrom t0 calls → inClockOrder t0 requests →
  inClockOrder (lastReading t0 calls) (run cfg calls requests).2.
Proof.
  induction calls as [|[now c] rest IH]; intros t0 requests Hclock Hord; [done|].
  destruct Hclock as [Hnow Hrest]. rewrite run_cons. cbn [snd lastReading].
  apply IH; [done|]. by eapply inClockOrder_step.
Qed.

(** X7. While the clock does not run backwards, the first of a key's
    valid timestamps is the oldest one, as [checkLimit] and
    [getTimeToReset] take it to be; the time to reset lies between 0 and
    [windowMs], and is 0 exactly when the key has no valid timestamp. *)
Theorem first_valid_is_oldest t0 calls key now :
  clockFrom t0 calls →
  lastReading t0 calls <= now →
  let valid := validTimestamps cfg now (timestampsOf key (run cfg calls ∅).2) in
  let wait := (getTimeToReset cfg key now (run cfg calls ∅).2).1 in
  (∀ oldest others, valid = oldest :: others → Forall (λ time, oldest <= time) others)
  ∧ 0 <= wait <= Z.max 0 (windowMs cfg)
  ∧ (wait = 0 ↔ valid = []).
Proof.
  intros Hclock Hnow valid wait.
  destruct (inClockOrder_run calls t0 ∅ Hclock) with (key := key) as [Hsorted Hle].
  { intros k. unfold timestampsOf. rewrite lookup_empty. split; constructor. }
  pose proof (StronglySorted_valid now _ Hsorted) as Hs. fold valid in Hs.
  pose proof (valid_not_after now _ _ Hle) as Hl. fold valid in Hl.
  pose proof (valid_Forall now (timestampsOf key (run cfg calls ∅).2)) as Hv. fold valid in Hv.
  subst wait. unfold getTimeToReset. fold valid.
  destruct valid as [|oldest others]; cbn [fst].
  - split; [discriminate|]. split; [lia|done].
  - apply Forall_cons in Hl as [Hold _]. apply Forall_cons in Hv as [Hfresh _].
    split; [|split; [lia|split; [lia|discriminate]]].
    intros ? ? [= <- <-]. by apply StronglySorted_inv in Hs as [_ ?].
Qed.

End Laws.

(** Instances on [sweptCalls]. *)

Lemma cleanup_is_invisible_witness :
  List.filter (λ e, about anyKey e.1.2) (run twoPerMinute sweptCalls ∅).1
  = (run twoPerMinute (List.filter (λ tc, about anyKey tc.2) sweptCalls) ∅).1.
Proof. apply (cleanup_is_invisible twoPerMinute 0 sweptCalls ∅). simpl. lia. Defined.

Lemma keys_are_independent_witness :
  List.filter (λ e, about (only "geolocate") e.1.2) (run twoPerMinute sweptCalls ∅).1
  = (run twoPerMinute (List.filter (λ tc, about (only "geolocate") tc.2) sweptCalls) ∅).1.
Proof.
  apply (keys_are_independent twoPerMinute "geolocate" 0 sweptCalls ∅). simpl. lia.
Defined.

Lemma checkLimit_spends_one_witness :
  let before := (run twoPerMinute [(0, CheckLimit "geolocate")] ∅).2 in
  (getRemainingRequests twoPerMinute "geolocate" 5 before).1 = 1
  ∧ (getRemainingRequests twoPerMinute "geolocate" 5
       (checkLimit twoPerMinute "geolocate" 5 before).2).1 = 0.
Proof.
  intros before.
  destruct (checkLimit_spends_one twoPerMinute "geolocate" 5 before) as [_ Hspent].
  - simpl. lia.
  - split; [reflexivity|]. rewrite Hspent; [reflexivity|]. vm_compute. reflexivity.
Defined.

Lemma retry_after_reset_succeeds_witness :
  (checkLimit twoPerMinute "geolocate" 50 (run twoPerMinute (take 4 sweptCalls) ∅).2).1
  = Threw (McpToolErr {| code := InternalError;
                         message := "Rate limit exceeded. Please try again later.";
                         data := Some (ResetInSeconds (Num 60)) |})
  ∧ (checkLimit twoPerMinute "geolocate" 60050 (run twoPerMinute (take 4 sweptCalls) ∅).2).1
    = Returned ().
Proof.
  split; [reflexivity|].
  eapply (retry_after_reset_succeeds twoPerMinute (take 4 sweptCalls) "geolocate" 50 _ 60).
  - reflexivity.
  - reflexivity.
  - lia.
Defined.

Lemma first_valid_is_oldest_witness :
  0 <= (getTimeToReset twoPerMinute "geolocate" 61020 (run twoPerMinute sweptCalls ∅).2).1
    <= 60000.
Proof.
  destruct (first_valid_is_oldest twoPerMinute 0 sweptCalls "geolocate" 61020)
    as (_ & Hwait & _).
  - simpl. lia.
  - simpl. lia.
  - simpl in Hwait |- *. lia.
Defined.

End RateLimiterLaws.

(** ** More on the TTL cache and the fixed-window limiter *)

Module CacheLaws.
Import CacheTs CacheProps.

Section Laws.
Context {T : Type}.
Implicit Types (c : Cache.t T) (key : string) (value : T).

Lemma get_other c key key' now :
  key ≠ key' → Cache.cache (Cache.get key now c).2 !! key' = Cache.cache c !! key'.
Proof.
  intros Hne. unfold Cache.get. destruct (Cache.cache c !! key) as [entry|]; [|done].
  destruct (decide (now - timestamp entry > Cache.ttl c)); [|done].
  simpl. by apply lookup_delete_ne.
Qed.

Lemma cache_eq c1 c2 :
  Cache.cache c1 = Cache.cache c2 → Cache.ttl c1 = Cache.ttl c2 → c1 = c2.
Proof. destruct c1, c2. simpl. congruence. Qed.

Lemma get_ttl c key now : Cache.ttl (Cache.get key now c).2 = Cache.ttl c.
Proof.
  unfold Cache.get. destruct (Cache.cache c !! key) as [entry|]; [|done].
  by destruct (decide (now - timestamp entry > Cache.ttl c)).
Qed.

(** X8. A later [set] replaces the earlier one for the same key, value
    and timestamp alike, so the entry's life starts anew; and writing one
    key never changes what a read of another key returns. *)
Theorem set_overwrites_and_is_local c key key' v1 v2 t1 t2 now :
  key ≠ key' →
  Cache.set key v2 t2 (Cache.set key v1 t1 c) = Cache.set key v2 t2 c
  ∧ (now - t2 <= Cache.ttl c → (Cache.get key now (Cache.set key v2 t2 (Cache.set key v1 t1 c))).1 = Some v2)
  ∧ (Cache.get key' now (Cache.set key v1 t1 c)).1 = (Cache.get key' now c).1.
Proof.
  intros Hne. split; [|split].
  - unfold Cache.set. simpl. by rewrite insert_insert_eq.
  - intros Hage.
    rewrite (get_fresh _ key now {| data := v2; timestamp := t2 |});
      [done|apply lookup_insert_eq|simpl; lia].
  - unfold Cache.get, Cache.set. cbn [Cache.cache Cache.ttl].
    rewrite lookup_insert_ne by done.
    destruct (Cache.cache c !! key') as [entry|]; [|done].
    by destruct (decide (now - timestamp entry > Cache.ttl c)).
Qed.

(** X9. A read touches at most the key it reads, adds nothing, and read
    again at the same instant gives the same answer and changes nothing
    more. *)
Theorem get_is_local_and_repeatable c key now :
  (∀ key', key ≠ key' →
     Cache.cache (Cache.get key now c).2 !! key' = Cache.cache c !! key')
  ∧ Cache.cache (Cache.get key now c).2 ⊆ Cache.cache c
  ∧ Cache.get key now (Cache.get key now c).2
    = ((Cache.get key now c).1, (Cache.get key now c).2).
Proof.
  split; [intros key'; apply get_other|]. split.
  - unfold Cache.get. destruct (Cache.cache c !! key) as [entry|]; [|done].
    destruct (decide (now - timestamp entry > Cache.ttl c)); [|done].
    simpl. apply delete_subseteq.
  - unfold Cache.get at 2 3 4. destruct (Cache.cache c !! key) as [entry|] eqn:Hentry.
    + destruct (decide (now - timestamp entry > Cache.ttl c)) as [Hold|Hfresh]; cbn [fst snd].
      * unfold Cache.get. cbn [Cache.cache]. by rewrite lookup_delete_eq.
      * apply get_fresh; [done|lia].
    + cbn [fst snd]. unfold Cache.get. by rewrite Hentry.
Qed.

(** X10. [prune()] leaves only entries whose age is within the ttl; it is
    invisible to readers: a read at the instant of the sweep or later
    returns what it would have returned without the sweep; and a second
    sweep at the same instant removes nothing more. *)
Theorem prune_is_invisible c now later key :
  now <= later →
  (∀ k entry, Cache.cache (Cache.prune now c) !! k = Some entry →
     Cache.cache c !! k = Some entry ∧ now - timestamp entry <= Cache.ttl c)
  ∧ (Cache.get key later (Cache.prune now c)).1 = (Cache.get key later c).1
  ∧ Cache.prune now (Cache.prune now c) = Cache.prune now c.
Proof.
  intros Hlater. split; [|split].
  - intros k entry. rewrite prune_lookup.
    destruct (Cache.cache c !! k) as [e|]; [|discriminate].
    destruct (decide (now - timestamp e > Cache.ttl c)); [discriminate|].
    intros [= <-]. split; [done|lia].
  - unfold Cache.get. rewrite prune_lookup. cbn [Cache.ttl Cache.prune].
    destruct (Cache.cache c !! key) as [entry|]; [|done].
    destruct (decide (now - timestamp entry > Cache.ttl c)) as [Hold|Hfresh].
    + rewrite decide_True by lia. done.
    + by destruct (decide (later - timestamp entry > Cache.ttl c)).
  - apply cache_eq; [|done]. apply map_eq. intros k.
    rewrite (prune_lookup (Cache.prune now c)), prune_lookup. cbn [Cache.ttl Cache.prune].
    destruct (Cache.cache c !! k) as [e|]; [|done].
    destruct (decide (now - timestamp e > Cache.ttl c)) as [|Hfresh]; [done|].
    by rewrite decide_False.
Qed.

End Laws.

Lemma set_overwrites_and_is_local_witness :
  let c : Cache.t string := Cache.new None in
  (Cache.get "8.8.8.8" 400000
     (Cache.set "8.8.8.8" "second" 200000 (Cache.set "8.8.8.8" "first" 0 c))).1 = Some "second"
  ∧ (Cache.get "1.1.1.1" 400000 (Cache.set "8.8.8.8" "first" 0 c)).1 = None.
Proof.
  intros c.
  destruct (set_overwrites_and_is_local c "8.8.8.8" "1.1.1.1" "first" "second" 0 200000 400000)
    as (_ & Hread & Hother); [done|].
  split; [apply Hread; simpl; lia|].
  rewrite Hother. reflexivity.
Defined.

Lemma prune_is_invisible_witness :
  let c : Cache.t string :=
    Cache.set "1.1.1.1" "young" 250000 (Cache.set "8.8.8.8" "old" 0 (Cache.new None)) in
  (Cache.get "1.1.1.1" 400000 (Cache.prune 300001 c)).1 = Some "young"
  ∧ Cache.cache (Cache.prune 300001 c) !! "8.8.8.8" = None.
Proof.
  intros c.
  destruct (prune_is_invisible c 300001 400000 "1.1.1.1") as (_ & Hread & _); [lia|].
  split; [rewrite Hread; reflexivity|reflexivity].
Defined.

(** *** The fixed-window limiter *)

(** X11. [canMakeRequest] and [getRemainingRequests] leave the limiter in
    the same state, and [canMakeRequest] answers true exactly when
    [getRemainingRequests] is positive; once the window has run out, the
    whole budget is back. *)
Theorem canMakeRequest_matches_remaining now l :
  0 <= RateLimiter.maxRequests l →
  (RateLimiter.canMakeRequest now l).2 = (RateLimiter.getRemainingRequests now l).2
  ∧ (RateLimiter.canMakeRequest now l).1
    = bool_decide (0 < (RateLimiter.getRemainingRequests now l).1)
  ∧ (RateLimiter.resetTime l <= now →
     (RateLimiter.getRemainingRequests now l).1 = RateLimiter.maxRequests l
     ∧ (RateLimiter.getTimeToReset now (RateLimiter.getRemainingRequests now l).2).1
       = Z.max 0 (RateLimiter.windowMs l)).
Proof.
  intros Hmax.
  unfold RateLimiter.canMakeRequest, RateLimiter.getRemainingRequests. cbn [fst snd].
  split; [done|]. split.
  - apply bool_decide_ext. lia.
  - intros Hout. unfold RateLimiter.rollOver, RateLimiter.getTimeToReset.
    rewrite decide_True by done. simpl. split; [lia|f_equal; lia].
Qed.

Lemma canMakeRequest_matches_remaining_witness :
  let used := Nat.iter 45 RateLimiter.incrementRequests
                (RateLimiter.new (Some 45) (Some 60000) 0) in
  (RateLimiter.canMakeRequest 59999 used).1 = false
  ∧ (RateLimiter.getRemainingRequests 60000 used).1 = 45.
Proof.
  intros used.
  destruct (canMakeRequest_matches_remaining 60000 used) as (_ & _ & Hback).
  - vm_compute. discriminate.
  - split; [reflexivity|]. apply Hback. vm_compute. discriminate.
Defined.





End CacheLaws.

(** ** More on geolocate *)

Module GeoLaws.
Import CacheTs GeoTerms GeoRuns.

Lemma geo_run_cons op rest st :
  run (op :: rest) st
  = ((step op st).1 :: (run rest (step op st).2).1, (run rest (step op st).2).2).
Proof.
  cbn [run]. destruct (step op st) as [reply st1]. cbn [fst snd].
  by destruct (run rest st1).
Qed.

(** The cache read of the handler, spelled out. *)
Lemma get_cases (c : Cache.t Geo.GeoLocation) key now :
  (∃ entry, Cache.cache c !! key = Some entry
            ∧ now - timestamp entry <= Cache.ttl c
            ∧ Cache.get key now c = (Some (data entry), c))
  ∨ ((Cache.get key now c).1 = None
     ∧ Cache.ttl (Cache.get key now c).2 = Cache.ttl c
     ∧ Cache.cache (Cache.get key now c).2 ⊆ Cache.cache c
     ∧ (∀ entry, Cache.cache c !! key = Some entry → ¬ now - timestamp entry <= Cache.ttl c)).
Proof.
  unfold Cache.get. destruct (Cache.cache c !! key) as [entry|] eqn:Hentry.
  - destruct (decide (now - timestamp entry > Cache.ttl c)) as [Hold|Hfresh].
    + right. simpl. split; [done|]. split; [done|].
      split; [apply delete_subseteq|]. intros e [= <-]. lia.
    + left. exists entry. split; [done|]. split; [lia|done].
  - right. simpl. split; [done|]. split; [done|]. split; [done|]. discriminate.
Qed.

(** X13. geolocate answers from the cache exactly when the cache holds
    an entry for the query whose age at the read is within the ttl, and
    then answers with that entry. *)
Theorem cache_answer_iff_fresh_entry query clk response st hit :
  (Geo.geolocate query clk response st).1 = Returned (cacheReply hit)
  ↔ ∃ entry, Cache.cache (Geo.geoCache st) !! query = Some entry
             ∧ data entry = hit
             ∧ Geo.atGet clk - timestamp entry <= Cache.ttl (Geo.geoCache st).
Proof.
  unfold Geo.geolocate.
  destruct (get_cases (Geo.geoCache st) query (Geo.atGet clk))
    as [(entry & Hentry & Hage & Hget)|(Hnone & _ & _ & Hstale)].
  - rewrite Hget. cbn [fst]. split.
    + intros [= <-]. eauto.
    + intros (e & He & <- & _). rewrite Hentry in He. by injection He as <-.
  - destruct (Cache.get query (Geo.atGet clk) (Geo.geoCache st)) as [cached cache1].
    simpl in Hnone. subst cached. split.
    + destruct (RateLimiter.canMakeRequest (Geo.atLimit clk) (Geo.rateLimiter st))
        as [[|] limiter1]; simpl; [|discriminate].
      destruct response as [[[body|] lim]|e]; simpl; discriminate.
    + intros (e & He & _ & Hage). by destruct (Hstale e He).
Qed.


(** *** What every state of the module satisfies *)

Lemma sound_init now : sound (Geo.init now).
Proof.
  split; [done|]. split; [done|]. split; [done|]. split; [done|].
  intros key entry. simpl. by rewrite lookup_empty.
Qed.

Lemma sound_rollOver now l :
  RateLimiter.maxRequests l = 45 → RateLimiter.windowMs l = 60000 →
  0 <= RateLimiter.requests l <= 45 →
  RateLimiter.maxRequests (RateLimiter.rollOver now l) = 45
  ∧ RateLimiter.windowMs (RateLimiter.rollOver now l) = 60000
  ∧ 0 <= RateLimiter.requests (RateLimiter.rollOver now l) <= 45.
Proof.
  intros Hmax Hwin Hreq. unfold RateLimiter.rollOver.
  destruct (decide (RateLimiter.resetTime l <= now)); simpl; repeat split; (done || lia).
Qed.

Lemma sound_geolocate query clk response st :
  sound st → sound (Geo.geolocate query clk response st).2.
Proof.
  intros (Hmax & Hwin & Hreq & Httl & Hcache). unfold Geo.geolocate.
  destruct (get_cases (Geo.geoCache st) query (Geo.atGet clk))
    as [(entry & Hentry & Hage & Hget)|(Hnone & Httl1 & Hsub & _)].
  { rewrite Hget. simpl. done. }
  destruct (Cache.get query (Geo.atGet clk) (Geo.geoCache st)) as [cached cache1].
  simpl in Hnone, Httl1, Hsub. subst cached. rewrite Httl in Httl1.
  assert (Hcache1 : ∀ key entry, Cache.cache cache1 !! key = Some entry →
                                 Geo.status (data entry) = "success").
  { intros key entry He. eapply Hcache, lookup_weaken; [exact He|exact Hsub]. }
  destruct (sound_rollOver (Geo.atLimit clk) _ Hmax Hwin Hreq) as (Hmax1 & Hwin1 & Hreq1).
  unfold RateLimiter.canMakeRequest.
  set (limiter1 := RateLimiter.rollOver (Geo.atLimit clk) (Geo.rateLimiter st)) in *.
  destruct (bool_decide (RateLimiter.requests limiter1 < RateLimiter.maxRequests limiter1))
    eqn:Hroom; cbn [negb].
  2: { simpl. done. }
  apply bool_decide_eq_true in Hroom.
  assert (Hcounted : 0 <= RateLimiter.requests (RateLimiter.incrementRequests limiter1) <= 45)
    by (simpl; lia).
  destruct response as [[[body|] lim]|e]; cbn [snd]; unfold sound;
    cbn [Geo.geoCache Geo.rateLimiter]; try done.
  destruct (decide (Geo.status body = "success")) as [Hok|]; [|done].
  repeat split; try done; try lia.
  intros key entry. simpl. rewrite lookup_insert.
  destruct (decide (query = key)); [by intros [= <-]|apply Hcache1].
Qed.

Lemma sound_step op st : sound st → sound (step op st).2.
Proof.
  intros Hs. destruct op as [query clk response|].
  - simpl. pose proof (sound_geolocate query clk response st Hs).
    by destruct (Geo.geolocate query clk response st).
  - destruct Hs as (? & ? & ? & ? & ?).
    split; [done|]. split; [done|]. split; [done|]. split; [done|].
    intros key entry. simpl. by rewrite lookup_empty.
Qed.


Lemma honest_step op st : sound st → honest (step op st).1.
Proof.
  intros (_ & _ & _ & _ & Hcache) response item Hreply Hitem Hsource.
  destruct op as [query clk resp|]; [|discriminate].
  simpl in Hreply.
  destruct (Geo.geolocate query clk resp st) as [reply st'] eqn:Hrun.
  simpl in Hreply. injection Hreply as ->.
  assert (Hrun1 : (Geo.geolocate query clk resp st).1 = Returned response) by by rewrite Hrun.
  clear Hrun. unfold Geo.geolocate in Hrun1.
  destruct (get_cases (Geo.geoCache st) query (Geo.atGet clk))
    as [(entry & Hentry & Hage & Hget)|(Hnone & _ & _ & _)].
  - rewrite Hget in Hrun1. simpl in Hrun1. injection Hrun1 as <-.
    apply list_elem_of_singleton in Hitem as ->. simpl. eauto.
  - destruct (Cache.get query (Geo.atGet clk) (Geo.geoCache st)) as [cached cache1].
    simpl in Hnone. subst cached.
    destruct (RateLimiter.canMakeRequest (Geo.atLimit clk) (Geo.rateLimiter st))
      as [[|] limiter1]; simpl in Hrun1; [|discriminate].
    destruct resp as [[[body|] lim]|e]; simpl in Hrun1; try discriminate.
    injection Hrun1 as <-. apply list_elem_of_singleton in Hitem as ->.
    simpl in Hsource. discriminate.
Qed.

Lemma honest_run ops : ∀ st, sound st → Forall honest (run ops st).1.
Proof.
  induction ops as [|op rest IH]; intros st Hs; [constructor|].
  rewrite geo_run_cons. cbn [fst]. constructor; [by apply honest_step|].
  apply IH. by apply sound_step.
Qed.

(** X15. Whatever lookups and cache resets were made since the module
    was loaded, a reply that names the cache as its source carries a body
    whose status is "success": a failed lookup is never served again. *)
Theorem cache_serves_successes_only now ops :
  Forall honest (run ops (Geo.init now)).1.
Proof. apply honest_run, sound_init. Qed.



End GeoLaws.

(** ** More on the reporter and the dispatcher *)

Module PipelineLaws.
Import Pipeline PipelineTerms PipelineProps Serving.

(** X18. [withProgress] is transparent to the operation it wraps: when
    the operation returns, so does [withProgress], with the same value and
    without a notification of its own; when the operation throws, exactly
    one error notification with the error's message follows the
    operation's own and the same error is thrown on. *)
Theorem withProgress_is_transparent {A} srv options tok (operation : ProgressReporter → M A) w :
  match operation (newReporter srv tok options) w with
  | (Returned a, w') =>
      withProgress srv options tok operation w = (Returned a, w')
  | (Threw e, w') =>
      ∃ w'' delivered,
        withProgress srv options tok operation w = (Threw e, w'')
        ∧ quiet w' w''
        ∧ sent w'' = sent w' ++ [(Error tok (messageOf e), delivered)]
  end.
Proof.
  unfold withProgress.
  destruct (operation (newReporter srv tok options) w) as [[a|e] w'] eqn:Hop.
  - by apply tryCatch_returned.
  - destruct (error_spec (newReporter srv tok options) (asError e) w')
      as (w'' & d & Hsend & Hquiet & Hsent).
    exists w'', d. split; [|split; [done|]].
    + erewrite tryCatch_threw by exact Hop.
      erewrite bind_returned by exact Hsend. reflexivity.
    + by rewrite Hsent, messageOf_asError.
Qed.

(** X25. [withRateLimit] runs the operation exactly when the limiter lets
    the call through, in the world where the call has been recorded; a
    call it turns down never starts the operation and leaves no trace. *)
Theorem withRateLimit_runs_when_admitted {A} c key now (operation : M A) w :
  match checkLimit c key now w with
  | (Returned _, w1) => withRateLimit c key now operation w = operation w1
  | (Threw e, _) => withRateLimit c key now operation w = (Threw e, w)
  end.
Proof.
  unfold withRateLimit.
  destruct (checkLimit c key now w) as [[[]|e] w1] eqn:Hcheck.
  - unfold mbind, M_bind. by rewrite Hcheck.
  - destruct (checkLimit_rejected c key now w e w1 Hcheck) as [-> _].
    unfold mbind, M_bind. by rewrite Hcheck.
Qed.

(** *** Tokens and counts *)

Lemma report_counts pr increment message w :
  ∃ pr' w' note delivered,
    report pr increment message w = (Returned pr', w')
    ∧ quiet w w'
    ∧ sent w' = sent w ++ [(note, delivered)]
    ∧ tokenOf note = token pr
    ∧ token pr' = token pr ∧ unit pr' = unit pr
    ∧ current pr' = current pr + default 1 increment.
Proof.
  unfold report.
  match goal with
  | |- context [tryCatch (notification ?srv ?n) ?h] =>
      destruct (guarded_send "Failed to send progress notification:" srv n w)
        as (w' & Hrun & Hquiet & Hsent & _)
  end.
  do 4 eexists. split.
  - erewrite bind_returned by exact Hrun. reflexivity.
  - split; [exact Hquiet|]. split; [exact Hsent|]. done.
Qed.

Lemma replay_counts calls : ∀ pr w,
  ∃ pr' w' notes,
    replay pr calls w = (Returned pr', w')
    ∧ quiet w w'
    ∧ sent w' = sent w ++ notes
    ∧ Forall (λ entry, tokenOf entry.1 = token pr) notes
    ∧ token pr' = token pr ∧ unit pr' = unit pr
    ∧ current pr' = current pr + reported calls.
Proof.
  induction calls as [|c rest IH]; intros pr w.
  - exists pr, w, []. simpl. rewrite app_nil_r, Z.add_0_r.
    repeat split; constructor.
  - cbn [replay reported].
    assert (Hhead : ∃ pr1 w1 note delivered,
               (match c with
                | CallReport increment message => report pr increment message
                | CallComplete message => complete pr message ≫= λ _, mret pr
                | CallError e => error pr e ≫= λ _, mret pr
                end) w = (Returned pr1, w1)
               ∧ quiet w w1
               ∧ sent w1 = sent w ++ [(note, delivered)]
               ∧ tokenOf note = token pr
               ∧ token pr1 = token pr ∧ unit pr1 = unit pr
               ∧ current pr1 + reported rest
                 = current pr + match c with
                                | CallReport increment _ => default 1 increment + reported rest
                                | _ => reported rest
                                end).
    { destruct c as [increment message|message|e].
      - destruct (report_counts pr increment message w)
          as (pr1 & w1 & note & d & Hrun & Hq & Hsent & Htok & Htok1 & Hunit & Hcur).
        exists pr1, w1, note, d. repeat split; try done; try apply Hq. lia.
      - destruct (complete_spec pr message w) as (w1 & d & Hrun & Hq & Hsent).
        do 4 eexists. split; [erewrite bind_returned by exact Hrun; reflexivity|].
        split; [exact Hq|]. split; [exact Hsent|]. done.
      - destruct (error_spec pr e w) as (w1 & d & Hrun & Hq & Hsent).
        do 4 eexists. split; [erewrite bind_returned by exact Hrun; reflexivity|].
        split; [exact Hq|]. split; [exact Hsent|]. done. }
    destruct Hhead as (pr1 & w1 & note & d & Hrun & Hq1 & Hsent1 & Hnote & Htok1 & Hunit1 & Hcur1).
    destruct (IH pr1 w1)
      as (pr' & w' & notes & Hrest & Hq2 & Hsent2 & Hnotes & Htok2 & Hunit2 & Hcur2).
    exists pr', w', ((note, d) :: notes).
    split; [erewrite bind_returned by exact Hrun; exact Hrest|].
    split; [by eapply quiet_trans|].
    split; [rewrite Hsent2, Hsent1, <- app_assoc; reflexivity|].
    split.
    { constructor; [done|]. eapply Forall_impl; [exact Hnotes|].
      simpl. intros entry ->. done. }
    split; [congruence|]. split; [congruence|].
    rewrite Hcur2. destruct c; lia.
Qed.

Section Laws.
Variable Args : Type.
Variable handlers : string → Args → HandlerRun.

(** The world an invocation of a registered tool ends in, once the
    limiter has let it through. *)
Lemma callTool_own_world srv at_ request w w1 t pr' w3 :
  getProperty Args handlers (req_name request) = Own t →
  checkLimit (selectRateLimiter (req_name request)) (req_name request) (now at_) w
  = (Returned (), w1) →
  replay (newReporter srv (fresh at_)
            {| opt_title := "Executing " +:+ req_name request;
               opt_total := None; opt_unit := Some "operations" |})
         (uses (handler t (req_arguments request)))
         (noteInvoked (name t) w1).2
  = (Returned pr', w3) →
  (callTool Args handlers srv at_ request w).2
  = match settles (handler t (req_arguments request)) with
    | Returned _ => (complete pr' None w3).2
    | Threw e =>
        (error (newReporter srv (fresh at_)
                  {| opt_title := "Executing " +:+ req_name request;
                     opt_total := None; opt_unit := Some "operations" |})
               (asError e) w3).2
    end.
Proof.
  intros Hget Hlimit Hreplay.
  set (options := {| opt_title := "Executing " +:+ req_name request;
                     opt_total := None; opt_unit := Some "operations" |}) in *.
  set (progress := newReporter srv (fresh at_) options) in *.
  assert (Hcall : callHandler Args (Own t) (req_arguments request) progress w1
                  = (match settles (handler t (req_arguments request)) with
                     | Returned toolResult => Returned (toolResult, pr')
                     | Threw e => Threw e
                     end, w3)).
  { cbn [callHandler]. erewrite bind_returned by reflexivity.
    erewrite bind_returned by exact Hreplay.
    by destruct (settles (handler t (req_arguments request))). }
  unfold callTool. rewrite Hget. unfold withRateLimit, withProgress. fold progress.
  destruct (settles (handler t (req_arguments request))) as [toolResult|e].
  - destruct (complete_spec pr' None w3) as (w4 & d & Hdone & _ & _).
    rewrite Hdone. cbn [snd].
    erewrite tryCatch_returned; [reflexivity|].
    erewrite bind_returned; [reflexivity|].
    erewrite bind_returned by exact Hlimit.
    erewrite tryCatch_returned; [reflexivity|].
    erewrite bind_returned by exact Hcall. cbn beta iota.
    erewrite bind_returned by exact Hdone. reflexivity.
  - destruct (error_spec progress (asError e) w3) as (w4 & d & Hdone & _ & _).
    rewrite Hdone. cbn [snd].
    assert (Hthrown :
              (checkLimit (selectRateLimiter (req_name request)) (req_name request) (now at_)
               ≫= λ _, tryCatch
                         (callHandler Args (Own t) (req_arguments request) progress
                          ≫= λ '(toolResult, progress'),
                          complete progress' None ≫= λ _, mret toolResult)
                         (λ err, error progress (asError err) ≫= λ _, throw err)) w
              = (Threw e, w4)).
    { erewrite bind_returned by exact Hlimit.
      erewrite tryCatch_threw by (apply bind_threw; exact Hcall).
      erewrite bind_returned by exact Hdone. reflexivity. }
    erewrite tryCatch_threw by (apply bind_threw; exact Hthrown).
    by destruct e.
Qed.

(** X19. Every notification an invocation sends carries the token drawn
    for that invocation, and when the handler returns, the completion
    that closes the invocation reports the sum of the increments the
    handler passed to [report]. *)
Theorem notifications_carry_token_and_total srv at_ request w t :
  getProperty Args handlers (req_name request) = Own t →
  (checkLimit (selectRateLimiter (req_name request)) (req_name request) (now at_) w).1
  = Returned () →
  ∃ notes,
    sent (callTool Args handlers srv at_ request w).2 = sent w ++ notes
    ∧ Forall (λ entry, tokenOf entry.1 = fresh at_) notes
    ∧ (is_returned (settles (handler t (req_arguments request))) = true →
       ∃ delivered,
         last notes
         = Some (Complete (fresh at_)
                   (CompletedProcessing (reported (uses (handler t (req_arguments request))))
                                        "operations"),
                 delivered)).
Proof.
  intros Hget Hlimit.
  destruct (checkLimit (selectRateLimiter (req_name request)) (req_name request) (now at_) w)
    as [o w1] eqn:Hcheck. simpl in Hlimit. subst o.
  destruct (checkLimit_channel (selectRateLimiter (req_name request))
              (req_name request) (now at_) w) as (Hsent1 & _ & _).
  rewrite Hcheck in Hsent1. cbn [snd] in Hsent1.
  set (options := {| opt_title := "Executing " +:+ req_name request;
                     opt_total := None; opt_unit := Some "operations" |}).
  set (progress := newReporter srv (fresh at_) options).
  destruct (replay_counts (uses (handler t (req_arguments request))) progress
              (noteInvoked (name t) w1).2)
    as (pr' & w3 & notes & Hreplay & _ & Hsent3 & Htokens & Htok & Hunit & Hcur).
  rewrite (callTool_own_world srv at_ request w w1 t pr' w3 Hget Hcheck Hreplay).
  fold options. fold progress.
  destruct (settles (handler t (req_arguments request))) as [toolResult|e].
  - destruct (complete_spec pr' None w3) as (w4 & d & Hdone & _ & Hsent4).
    rewrite Hdone. cbn [snd].
    exists (notes ++ [(Complete (token pr')
                         (orDefault None (CompletedProcessing (current pr') (unit pr'))), d)]).
    split; [rewrite Hsent4, Hsent3; simpl; rewrite Hsent1; by rewrite app_assoc|].
    split.
    + apply Forall_app. split; [exact Htokens|]. constructor; [|constructor].
      simpl. by rewrite Htok.
    + intros _. exists d. rewrite last_snoc. simpl.
      rewrite Htok, Hunit, Hcur. reflexivity.
  - destruct (error_spec progress (asError e) w3) as (w4 & d & Hdone & _ & Hsent4).
    rewrite Hdone. cbn [snd].
    exists (notes ++ [(Error (token progress) (messageOf (asError e)), d)]).
    split; [rewrite Hsent4, Hsent3; simpl; rewrite Hsent1; by rewrite app_assoc|].
    split; [|discriminate].
    apply Forall_app. split; [exact Htokens|]. by repeat constructor.
Qed.

(** *** What an invocation does to the limiters *)

Lemma requestsOf_withRequests c c' r w :
  requestsOf c' (withRequests c r w) = if decide (c' = c) then r else requestsOf c' w.
Proof. destruct c, c'; simpl; by repeat case_decide. Qed.

Lemma sameLimiters_requestsOf w w' c : sameLimiters w w' → requestsOf c w' = requestsOf c w.
Proof. intros (? & ? & ?). by destruct c. Qed.

(** A call the limiter lets through has stored the instant after the
    timestamps still valid, of which there were fewer than [maxRequests]. *)
Lemma checkLimit_passed c key now w w1 :
  checkLimit c key now w = (Returned (), w1) →
  let valid := RateLimiter.validTimestamps (limiterOf c) now
                 (RateLimiter.timestampsOf key (requestsOf c w)) in
  Z.of_nat (length valid) < RateLimiter.maxRequests (limiterOf c)
  ∧ (∀ c', requestsOf c' w1
           = if decide (c' = c) then <[key := valid ++ [now]]> (requestsOf c w)
             else requestsOf c' w)
  ∧ invoked w1 = invoked w.
Proof.
  rewrite checkLimit_unfold. unfold RateLimiter.checkLimit.
  destruct (decide _) as [|Hroom]; simpl; [discriminate|].
  intros [= <-]. split; [lia|]. split; [|by destruct c].
  intros c'. apply requestsOf_withRequests.
Qed.

(** Either nothing changed, or the call went through the limiter. *)
Lemma callTool_effect srv at_ request w :
  (callTool Args handlers srv at_ request w).2 = w
  ∨ ∃ w1,
      checkLimit (selectRateLimiter (req_name request)) (req_name request) (now at_) w
      = (Returned (), w1)
      ∧ sameLimiters w1 (callTool Args handlers srv at_ request w).2
      ∧ invoked (callTool Args handlers srv at_ request w).2
        = invoked w ++ handlerLog (getProperty Args handlers (req_name request)).
Proof.
  destruct (undefined_or_found Args (getProperty Args handlers (req_name request)))
    as [Hnone|Hfound].
  { left. by rewrite (callTool_unknown Args handlers srv at_ request w Hnone). }
  destruct (checkLimit (selectRateLimiter (req_name request)) (req_name request) (now at_) w)
    as [[[]|e] w1] eqn:Hcheck.
  - right. exists w1.
    destruct (callTool_passed Args handlers srv at_ request w w1 Hfound Hcheck)
      as (w2 & ? & ? & ? & Hrun & Hlim & Hinv & _).
    rewrite Hrun. done.
  - left. by rewrite (callTool_limited Args handlers srv at_ request w e w1 Hfound Hcheck).
Qed.

(** X20. An invocation touches the budget of the tool it names and no
    other: in every limiter, the timestamps kept under any other key, and
    everything kept by the limiters the tool is not routed to, stay as
    they were. Tools served by one limiter do not share a count. *)
Theorem tools_have_separate_budgets srv at_ request w c key :
  c ≠ selectRateLimiter (req_name request) ∨ key ≠ req_name request →
  requestsOf c (callTool Args handlers srv at_ request w).2 !! key = requestsOf c w !! key.
Proof.
  intros Hother.
  destruct (callTool_effect srv at_ request w) as [->|(w1 & Hcheck & Hlim & _)]; [done|].
  rewrite (sameLimiters_requestsOf _ _ c Hlim).
  destruct (checkLimit_passed _ _ _ _ _ Hcheck) as (_ & Hreq & _).
  rewrite Hreq. destruct (decide (c = selectRateLimiter (req_name request))) as [->|]; [|done].
  destruct Hother as [|Hkey]; [done|]. by rewrite lookup_insert_ne.
Qed.

(** *** The end-to-end limit *)

Lemma allTools_name n t : allTools Args handlers !! n = Some t → name t = n.
Proof.
  intros Hin. pose proof (registered Args handlers n t Hin) as Hreg.
  unfold registeredNames in Hreg. rewrite !elem_of_cons, elem_of_nil in Hreg.
  repeat (destruct Hreg as [->|Hreg]); try done;
    vm_compute in Hin; by injection Hin as <-.
Qed.

Lemma handlerLog_getProperty n :
  handlerLog (getProperty Args handlers n) = [] ∨ handlerLog (getProperty Args handlers n) = [n].
Proof.
  unfold getProperty. destruct (allTools Args handlers !! n) as [t|] eqn:Hin.
  - right. simpl. by rewrite (allTools_name n t Hin).
  - left. by destruct (decide _).
Qed.

Lemma windowMs_limiterOf c : RateLimiter.windowMs (limiterOf c) = 60000.
Proof. by destruct c. Qed.

Lemma maxRequests_limiterOf c : 0 <= RateLimiter.maxRequests (limiterOf c).
Proof. by destruct c. Qed.

Lemma runs_nil tool : runs tool [] = 0%nat.
Proof. done. Qed.

Lemma runs_one tool : runs tool [tool] = 1%nat.
Proof. unfold runs. simpl. by rewrite bool_decide_eq_true_2. Qed.

Lemma runs_other tool n : n ≠ tool → runs tool [n] = 0%nat.
Proof. intros Hne. unfold runs. simpl. by rewrite bool_decide_eq_false_2. Qed.

Lemma runs_app tool l1 l2 : runs tool (l1 ++ l2) = (runs tool l1 + runs tool l2)%nat.
Proof. unfold runs. by rewrite List.filter_app, length_app. Qed.

Lemma recent_app t0 l1 l2 : recent t0 (l1 ++ l2) = recent t0 l1 ++ recent t0 l2.
Proof. apply filter_app. Qed.

Lemma recent_length t0 l : (length (recent t0 l) <= length l)%nat.
Proof. apply length_filter. Qed.

Lemma recent_valid c t0 now l :
  now < t0 + 60000 →
  recent t0 (RateLimiter.validTimestamps (limiterOf c) now l) = recent t0 l.
Proof.
  intros Hspan. unfold recent, RateLimiter.validTimestamps.
  apply list_filter_filter_l. intros time Htime. rewrite windowMs_limiterOf. lia.
Qed.

Lemma sweepReading_in c atSystem atNetwork atGeo :
  sweepReading c atSystem atNetwork atGeo ∈ [atSystem; atNetwork; atGeo].
Proof. destruct c; simpl; rewrite !elem_of_cons; tauto. Qed.

Lemma requestsOf_sweep c key atSystem atNetwork atGeo w :
  RateLimiter.timestampsOf key (requestsOf c (sweep atSystem atNetwork atGeo w))
  = RateLimiter.validTimestamps (limiterOf c) (sweepReading c atSystem atNetwork atGeo)
      (RateLimiter.timestampsOf key (requestsOf c w)).
Proof. destruct c; simpl; apply RateLimiterProps.timestampsOf_cleanup. Qed.

(** One event either leaves the count of a tool's handler runs alone and
    loses none of its recent timestamps, or adds one run and one recent
    timestamp, of which there are then at most [maxRequests]. *)
Lemma handle_step t0 tool e w :
  Forall (λ time, t0 <= time < t0 + 60000) (readings e) →
  let w' := handle Args handlers e w in
  (runs tool (invoked w') = runs tool (invoked w)
   ∧ (length (recent t0 (stamps tool w)) <= length (recent t0 (stamps tool w')))%nat)
  ∨ (runs tool (invoked w') = S (runs tool (invoked w))
     ∧ length (recent t0 (stamps tool w')) = S (length (recent t0 (stamps tool w)))
     ∧ Z.of_nat (length (recent t0 (stamps tool w')))
       <= RateLimiter.maxRequests (limiterOf (selectRateLimiter tool))).
Proof.
  intros Hspan. destruct e as [srv at_ request|atSystem atNetwork atGeo];
    cbn [handle readings] in *.
  - apply Forall_inv in Hspan. simpl in Hspan.
    destruct (callTool_effect srv at_ request w) as [->|(w1 & Hcheck & Hlim & Hinv)];
      [left; done|].
    destruct (checkLimit_passed _ _ _ _ _ Hcheck) as (Hroom & Hreq & _).
    assert (Hstamps : stamps tool (callTool Args handlers srv at_ request w).2
                      = if decide (req_name request = tool)
                        then RateLimiter.validTimestamps (limiterOf (selectRateLimiter tool))
                               (now at_) (stamps tool w) ++ [now at_]
                        else stamps tool w).
    { unfold stamps. rewrite (sameLimiters_requestsOf _ _ _ Hlim), Hreq.
      destruct (decide (req_name request = tool)) as [<-|Hne].
      - rewrite decide_True by done.
        by rewrite RateLimiterProps.timestampsOf_insert, decide_True.
      - destruct (decide _) as [Heq|]; [|done].
        rewrite RateLimiterProps.timestampsOf_insert, decide_False by done.
        by rewrite Heq. }
    rewrite Hstamps, Hinv, runs_app.
    destruct (decide (req_name request = tool)) as [Hsame|Hne].
    + assert (Hrecent : length (recent t0
                          (RateLimiter.validTimestamps (limiterOf (selectRateLimiter tool))
                             (now at_) (stamps tool w) ++ [now at_]))
                        = S (length (recent t0 (stamps tool w)))).
      { rewrite recent_app, recent_valid, length_app by lia.
        unfold recent at 2. rewrite filter_cons_True, filter_nil by lia. simpl. lia. }
      destruct (handlerLog_getProperty (req_name request)) as [->| ->].
      * left. rewrite runs_nil. split; [lia|]. rewrite Hrecent. lia.
      * right. rewrite Hrecent, Hsame, runs_one.
        split; [lia|]. split; [done|].
        subst tool. unfold stamps.
        pose proof (recent_length t0
                      (RateLimiter.validTimestamps
                         (limiterOf (selectRateLimiter (req_name request))) (now at_)
                         (RateLimiter.timestampsOf (req_name request)
                            (requestsOf (selectRateLimiter (req_name request)) w)))) as Hle.
        rewrite recent_valid in Hle by lia.
        unfold stamps in *. lia.
    + left. split; [|done].
      destruct (handlerLog_getProperty (req_name request)) as [->| ->];
        [rewrite runs_nil|rewrite (runs_other tool _ Hne)]; lia.
  - left. split; [done|]. unfold stamps. rewrite requestsOf_sweep.
    rewrite recent_valid; [done|].
    rewrite Forall_forall in Hspan. by apply Hspan, sweepReading_in.
Qed.

Lemma serve_bound t0 tool events : ∀ w (j : nat),
  Forall (λ e, Forall (λ time, t0 <= time < t0 + 60000) (readings e)) events →
  (j <= length (recent t0 (stamps tool w)))%nat →
  Z.of_nat j <= RateLimiter.maxRequests (limiterOf (selectRateLimiter tool)) →
  Z.of_nat (runs tool (invoked (serve Args handlers events w)) + j)
  <= Z.of_nat (runs tool (invoked w))
     + RateLimiter.maxRequests (limiterOf (selectRateLimiter tool)).
Proof.
  induction events as [|e rest IH]; intros w j Hspan Hrecent Hmax; [simpl; lia|].
  apply Forall_cons in Hspan as [He Hrest]. cbn [serve foldl].
  fold (serve Args handlers rest (handle Args handlers e w)).
  destruct (handle_step t0 tool e w He) as [[Hruns Hkeep]|(Hruns & Hgrow & Hfull)].
  - rewrite <- Hruns. apply IH; [done|lia|done].
  - specialize (IH (handle Args handlers e w) (S j) Hrest). rewrite Hruns in IH.
    lapply IH; [|lia]. intros IH'. lapply IH'; [lia|lia].
Qed.

(** X21. Within any span shorter than a minute, whatever requests
    arrive, over whatever channel, and whenever the sweep runs, the
    handler of a tool is invoked at most as often as the limiter serving
    the tool allows: 100 times, 50 for traceroute, 45 for geolocate. *)
Theorem handler_runs_are_limited t0 tool events w :
  Forall (λ e, Forall (λ time, t0 <= time < t0 + 60000) (readings e)) events →
  Z.of_nat (runs tool (invoked (serve Args handlers events w)))
  <= Z.of_nat (runs tool (invoked w))
     + RateLimiter.maxRequests (limiterOf (selectRateLimiter tool)).
Proof.
  intros Hspan.
  pose proof (serve_bound t0 tool events w 0 Hspan) as Hbound.
  rewrite Nat.add_0_r in Hbound. apply Hbound; [lia|apply maxRequests_limiterOf].
Qed.

(** *** Rejections on a running server *)

Lemma notAfter_sweep T atSystem atNetwork atGeo w c :
  RateLimiter.notAfter T (requestsOf c w) →
  RateLimiter.notAfter T (requestsOf c (sweep atSystem atNetwork atGeo w)).
Proof.
  intros Hin key. rewrite requestsOf_sweep. apply Forall_forall. intros time Htime.
  apply list_elem_of_filter in Htime as [_ Htime].
  specialize (Hin key). rewrite Forall_forall in Hin. by apply Hin.
Qed.

Lemma notAfter_handle T e w :
  Forall (λ time, time <= T) (readings e) →
  (∀ c, RateLimiter.notAfter T (requestsOf c w)) →
  ∀ c, RateLimiter.notAfter T (requestsOf c (handle Args handlers e w)).
Proof.
  intros Hinstant Hin c. destruct e as [srv at_ request|atSystem atNetwork atGeo];
    cbn [handle readings] in *.
  - destruct (callTool_effect srv at_ request w) as [->|(w1 & Hcheck & Hlim & _)]; [done|].
    rewrite (sameLimiters_requestsOf _ _ c Hlim).
    destruct (checkLimit_passed _ _ _ _ _ Hcheck) as (_ & Hreq & _).
    rewrite Hreq. destruct (decide (c = selectRateLimiter (req_name request))) as [->|]; [|done].
    intros key. rewrite RateLimiterProps.timestampsOf_insert.
    destruct (decide (req_name request = key)); [|apply Hin].
    apply Forall_inv in Hinstant. simpl in Hinstant.
    apply Forall_app. split; [|by repeat constructor].
    apply Forall_forall. intros time Htime.
    apply list_elem_of_filter in Htime as [_ Htime].
    specialize (Hin (selectRateLimiter (req_name request)) (req_name request)).
    rewrite Forall_forall in Hin. by apply Hin.
  - by apply notAfter_sweep.
Qed.

Lemma notAfter_serve T events : ∀ w,
  Forall (λ e, Forall (λ time, time <= T) (readings e)) events →
  (∀ c, RateLimiter.notAfter T (requestsOf c w)) →
  ∀ c, RateLimiter.notAfter T (requestsOf c (serve Args handlers events w)).
Proof.
  induction events as [|e rest IH]; intros w Hall Hin; [done|].
  apply Forall_cons in Hall as [He Hrest]. cbn [serve foldl].
  apply IH; [done|]. by apply notAfter_handle.
Qed.

(** X23. On a server started with empty limiters, a request the limiter
    turns down at an instant not before any earlier request or sweep is
    answered by throwing the limiter's own error, with its configured
    message and a [resetInSeconds] between 1 and 60, and leaves the world
    as it was. *)
Theorem rejection_names_a_wait_within_a_minute events srv at_ request e :
  Forall (λ ev, Forall (λ time, time <= now at_) (readings ev)) events →
  getProperty Args handlers (req_name request) ≠ Undefined →
  (checkLimit (selectRateLimiter (req_name request)) (req_name request) (now at_)
     (serve Args handlers events emptyWorld)).1 = Threw e →
  callTool Args handlers srv at_ request (serve Args handlers events emptyWorld)
  = (Threw e, serve Args handlers events emptyWorld)
  ∧ ∃ r, e = McpToolErr
               {| code := InternalError;
                  message := RateLimiter.errorMessage
                               (limiterOf (selectRateLimiter (req_name request)));
                  data := Some (ResetInSeconds (Num r)) |}
         ∧ 1 <= r <= 60.
Proof.
  intros Hbefore Hfound Hrejected.
  set (w := serve Args handlers events emptyWorld) in *.
  set (c := selectRateLimiter (req_name request)) in *.
  assert (Hstored : RateLimiter.notAfter (now at_) (requestsOf c w)).
  { apply notAfter_serve; [done|]. intros c' key. destruct c'; constructor. }
  split.
  { destruct (checkLimit c (req_name request) (now at_) w) as [o w1] eqn:Hcheck.
    simpl in Hrejected. subst o. by eapply callTool_limited. }
  rewrite checkLimit_unfold in Hrejected. cbn [fst] in Hrejected.
  unfold RateLimiter.checkLimit in Hrejected.
  destruct (decide _) as [Hfull|]; [|discriminate]. cbn [fst] in Hrejected.
  pose proof (RateLimiterLaws.valid_Forall (limiterOf c) (now at_)
                (RateLimiter.timestampsOf (req_name request) (requestsOf c w))) as Hfresh.
  pose proof (RateLimiterLaws.valid_not_after (limiterOf c) (now at_) (now at_) _
                (Hstored (req_name request))) as Hold.
  destruct (RateLimiter.validTimestamps (limiterOf c) (now at_)
              (RateLimiter.timestampsOf (req_name request) (requestsOf c w)))
    as [|oldest others].
  { exfalso. simpl in Hfull. destruct c; simpl in Hfull; lia. }
  apply Forall_cons in Hfresh as [Hfresh _]. apply Forall_cons in Hold as [Hold _].
  rewrite windowMs_limiterOf in Hfresh.
  cbn [RateLimiter.untilOldestExpires RateLimiter.ceilSeconds] in Hrejected.
  injection Hrejected as <-. eexists. split; [reflexivity|].
  rewrite windowMs_limiterOf.
  pose proof (RateLimiterProps.ceil_div_pos (oldest + 60000 - now at_)) as Hpos.
  pose proof (RateLimiterProps.ceil_div_mono (oldest + 60000 - now at_) 60000) as Hmono.
  change (ceil_div 60000 1000) with 60 in Hmono. lia.
Qed.

(** X24. When a registered tool's call passes the limiter and its
    handler returns, the caller receives the handler's content as it is,
    and [_meta] carries the error flag exactly when the handler set
    [isError] to true. *)
Theorem handler_result_passes_through srv at_ request w t result :
  getProperty Args handlers (req_name request) = Own t →
  (checkLimit (selectRateLimiter (req_name request)) (req_name request) (now at_) w).1
  = Returned () →
  settles (handler t (req_arguments request)) = Returned result →
  (callTool Args handlers srv at_ request w).1
  = Returned {| res_content := content result;
                _meta := if isError result is Some true
                         then Some {| meta_isError := true |} else None |}.
Proof.
  intros Hget Hlimit Hsettles.
  destruct (checkLimit (selectRateLimiter (req_name request)) (req_name request) (now at_) w)
    as [o w1] eqn:Hcheck. simpl in Hlimit. subst o.
  destruct (callTool_passed Args handlers srv at_ request w w1) as (w2 & ? & ? & ? & Hrun & _);
    [by rewrite Hget|exact Hcheck|].
  rewrite Hrun, Hget. cbn [fst settle]. rewrite Hsettles. cbn [envelope].
  by destruct (isError result) as [[|]|].
Qed.

End Laws.

(** Instances. *)

Lemma notifications_carry_token_and_total_witness :
  ∃ notes delivered,
    sent (callTool () countingHandlers reliable noon (call "hashData") emptyWorld).2 = notes
    ∧ Forall (λ entry, tokenOf entry.1 = "progress-43200000-k3x9") notes
    ∧ last notes = Some (Complete "progress-43200000-k3x9"
                           (CompletedProcessing 8 "operations"), delivered).
Proof.
  edestruct (notifications_carry_token_and_total () countingHandlers reliable noon
               (call "hashData") emptyWorld) as (notes & Hsent & Htokens & Hlast).
  - reflexivity.
  - reflexivity.
  - destruct Hlast as [d Hd]; [reflexivity|].
    exists notes, d. split; [exact Hsent|]. split; [exact Htokens|exact Hd].
Defined.

Lemma tools_have_separate_budgets_witness :
  requestsOf System
    (callTool () sampleHandlers reliable noon (call "hashData") emptyWorld).2 !! "generateUUID"
  = None.
Proof.
  rewrite (tools_have_separate_budgets () sampleHandlers reliable noon (call "hashData")
             emptyWorld System "generateUUID"); [reflexivity|].
  right. discriminate.
Defined.

Lemma rejection_names_a_wait_within_a_minute_witness :
  let busy := replicate 100 (Invoke reliable noon (call "hashData")) in
  ∃ r, (callTool () sampleHandlers reliable noon (call "hashData")
          (serve () sampleHandlers busy emptyWorld)).1
       = Threw (McpToolErr
                  {| code := InternalError;
                     message := "Too many system operations. Please try again in a moment.";
                     data := Some (ResetInSeconds (Num r)) |})
       ∧ 1 <= r <= 60.
Proof.
  intros busy.
  destruct (rejection_names_a_wait_within_a_minute () sampleHandlers busy reliable noon
              (call "hashData")
              (McpToolErr
                 {| code := InternalError;
                    message := "Too many system operations. Please try again in a moment.";
                    data := Some (ResetInSeconds (Num 60)) |}))
    as [Hrun (r & Heq & Hr)].
  - apply Forall_forall. intros ev [-> _]%elem_of_replicate.
    repeat constructor. simpl. lia.
  - discriminate.
  - vm_compute. reflexivity.
  - exists r. rewrite Hrun. cbn [fst]. split; [by f_equal|exact Hr].
Defined.

Lemma handler_result_passes_through_witness :
  (callTool () sampleHandlers disconnected noon (call "hashData") emptyWorld).1
  = Returned {| res_content := [ {| type := "text"; text := "ok" |} ]; _meta := None |}.
Proof.
  exact (handler_result_passes_through () sampleHandlers disconnected noon (call "hashData")
           emptyWorld
           {| name := "hashData";
              description := "Hash input data using Node.js crypto module";
              handler := sampleHandlers "hashData" |}
           (textResponse "ok") eq_refl eq_refl eq_refl).
Defined.

Lemma handler_runs_are_limited_witness :
  Z.of_nat (runs "hashData" (invoked (serve () sampleHandlers noonBurst emptyWorld))) <= 100.
Proof.
  apply (handler_runs_are_limited () sampleHandlers 43200000 "hashData" noonBurst emptyWorld).
  repeat constructor; simpl; lia.
Defined.

End PipelineLaws.

(** ** The listing and the lookup *)

Module ListingLaws.
Import Pipeline PipelineTerms PipelineProps Listing.

Section Laws.
Variable Args : Type.
Variable handlers : string → Args → HandlerRun.
Variable Schema : Type.
Variable inputSchema : string → Schema.

Lemma entries_names : (entries Args handlers).*1 = registeredNames.
Proof. vm_compute. reflexivity. Qed.

Lemma registeredNames_NoDup : NoDup registeredNames.
Proof. apply (bool_decide_unpack _). vm_compute. exact I. Qed.

Lemma allTools_entries : allTools Args handlers = list_to_map (entries Args handlers).
Proof. vm_compute. reflexivity. Qed.

Lemma entries_lookup n t :
  (n, t) ∈ entries Args handlers ↔ allTools Args handlers !! n = Some t.
Proof.
  rewrite allTools_entries. apply elem_of_list_to_map.
  rewrite entries_names. apply registeredNames_NoDup.
Qed.

(** X22. The listing and the lookup agree on the registered tools: a
    record is listed exactly when its name resolves to an own property of
    the registry with that description and schema; the sixteen names are
    listed once each, in the order of the spreads; and the names inherited
    from [Object.prototype], which the lookup also resolves, are not
    listed. *)
Theorem listing_matches_lookup :
  (∀ item,
     item ∈ listTools Args handlers Schema inputSchema
     ↔ ∃ t, getProperty Args handlers (listed_name item) = Own t
            ∧ description t = listed_description item
            ∧ inputSchema (listed_name item) = listed_inputSchema item)
  ∧ listed_name <$> listTools Args handlers Schema inputSchema = registeredNames
  ∧ NoDup registeredNames
  ∧ (∀ n, n ∈ objectPrototype →
       getProperty Args handlers n = Inherited ∧ n ∉ registeredNames).
Proof.
  split; [|split; [vm_compute; reflexivity|split]].
  - intros [n d s]. unfold listTools. rewrite list_elem_of_fmap. cbn [listed_name
      listed_description listed_inputSchema]. split.
    + intros ([n' t] & [= -> -> ->] & Hin). apply entries_lookup in Hin.
      exists t. unfold getProperty. by rewrite Hin.
    + intros (t & Hget & <- & <-). exists (n, t). split; [done|].
      apply entries_lookup. unfold getProperty in Hget.
      destruct (allTools Args handlers !! n) as [t'|]; [by injection Hget as ->|].
      by destruct (decide _).
  - apply registeredNames_NoDup.
  - intros n Hn.
    assert (Hnot : n ∉ registeredNames).
    { revert n Hn. apply Forall_forall, (bool_decide_unpack _). vm_compute. exact I. }
    split; [|exact Hnot].
    unfold getProperty. rewrite decide_True by done.
    destruct (allTools Args handlers !! n) as [t|] eqn:Hin; [|done].
    by apply registered in Hin.
Qed.

End Laws.
End ListingLaws.
